(** * AppSec WAF handle management (internal/appsec/waf.go)

    A shallow embedding of the rule-handle manager of the AppSec package:
    [actionFromEntry], [newWAFHandle], [newWAFEventListeners] and [swapWAF],
    together with the monitoring tags of the rules diagnostics.

    Go values are modelled as follows: [int] as [Z], [string] as [string],
    [map[string]*Action] as [gmap string Action], [map[string]struct{}] as
    [gset string], slices as lists, a nilable pointer as [option], and the
    pair [(v, error)] returned by a function as [v * option error].  Side
    effects (debug logs, [Close] calls on handles, the process-wide root
    operation) are threaded through an explicit [World].  Names are those of
    the source; a package prefix ([waf_], [sharedsec_], ...) or a trailing
    underscore tells apart two names that would otherwise clash. *)

From Stdlib Require Import ZArith String Ascii List.
From stdpp Require Import base option list gmap sets strings.

Open Scope Z_scope.
Open Scope string_scope.
Open Scope list_scope.

(** ** Configuration (package config) *)

(** Parameters of an action entry: [status_code], the optional
    [grpc_status_code] (a [*int], nil when absent), [type] and [location]. *)
Record ActionEntryParameters := {
  StatusCode : Z;
  GRPCStatusCode : option Z;
  Parameters_Type : string;
  Location : string
}.

(** One entry of the [actions] list of a rules document. *)
Record ActionEntry := {
  ID : string;
  Type_ : string;
  Parameters : ActionEntryParameters
}.

(** Go errors; [errors_New] is [errors.New]. *)
Inductive error := errors_New (msg : string).

(** ** Actions (package emitter/sharedsec) *)

(** Modelled from the spec: the action constructors of sharedsec are not part
    of the sources at hand.  An action is either a block (HTTP status code,
    protocol-specific abort code, response-content type) or a redirect (status
    code, target location); each constructor stands for the Go function of the
    same name and keeps the arguments it was called with. *)
Inductive Action :=
| NewBlockRequestAction (httpStatus grpcStatus : Z) (template : string)
| NewRedirectRequestAction (status : Z) (loc : string).

Definition is_block (a : Action) : bool :=
  match a with NewBlockRequestAction _ _ _ => true | _ => false end.

Definition http_status (a : Action) : Z :=
  match a with
  | NewBlockRequestAction s _ _ => s
  | NewRedirectRequestAction s _ => s
  end.

Definition grpc_code (a : Action) : option Z :=
  match a with
  | NewBlockRequestAction _ g _ => Some g
  | NewRedirectRequestAction _ _ => None
  end.

Definition content_type (a : Action) : option string :=
  match a with
  | NewBlockRequestAction _ _ t => Some t
  | NewRedirectRequestAction _ _ => None
  end.

(** [sharedsec.Actions] is [map[string]*Action]. *)
Abbreviation sharedsec_Actions := (gmap string Action).

(** ** Collaborators outside the package *)

(** The types the package only passes around: the body of a rules document
    (everything of [config.RulesFragment] but its actions), the engine's
    [*waf.Handle], the shared [limiter.Limiter] and the API security
    settings. *)
Class Opaque := {
  RulesDoc : Type;
  waf_Handle : Type;
  Limiter : Type;
  APISecConfig : Type
}.

(** Modelled from the spec: package log is not part of the sources at hand.
    A call of [log.Debug] is kept as a record of its format string and its
    arguments. *)
Inductive LogArg :=
| ArgString (s : string)
| ArgStrings (l : list string)
| ArgAddresses (s : gset string).

Record LogEntry := Debug { format : string; args : list LogArg }.

Section Types.
Context `{Opaque}.

Record RulesFragment := {
  Rules : RulesDoc;
  Actions : list ActionEntry
}.

Record ObfuscatorConfig := { KeyRegex : string; ValueRegex : string }.

Record Config := {
  Obfuscator : ObfuscatorConfig;
  WAFTimeout : Z;
  APISec : APISecConfig
}.

Record wafHandle := {
  Handle : waf_Handle;
  actions : sharedsec_Actions
}.

(** Modelled from the spec: the listener packages (graphqlsec, grpcsec,
    httpsec) are not part of the sources at hand.  A listener is the record
    of what its constructor [NewWAFEventListener] was given: the engine
    handle, the action registry, the bound addresses, the evaluation timeout
    and the limiter (and the API security settings for HTTP). *)
Inductive EventListener :=
| graphqlsec_NewWAFEventListener
    (h : waf_Handle) (acts : sharedsec_Actions) (addresses : gset string)
    (timeout : Z) (l : Limiter)
| grpcsec_NewWAFEventListener
    (h : waf_Handle) (acts : sharedsec_Actions) (addresses : gset string)
    (timeout : Z) (l : Limiter)
| httpsec_NewWAFEventListener
    (h : waf_Handle) (acts : sharedsec_Actions) (addresses : gset string)
    (timeout : Z) (apisec : APISecConfig) (l : Limiter).

(** Modelled from the spec: package dyngo is not part of the sources at
    hand.  An operation owns the ordered list of its listener
    registrations; [On] registers one more, a fresh root has none, and
    [SwapRootOperation] replaces the process-wide root. *)
Record Operation := { listeners : list EventListener }.

(** Modelled from the spec: [dyngo.NewRootOperation], a root without
    listeners. *)
Definition NewRootOperation : Operation := {| listeners := [] |}.

(** Modelled from the spec: [op.On(l)], registration in order. *)
Definition On (op : Operation) (l : EventListener) : Operation :=
  {| listeners := listeners op ++ [l] |}.

(** What the package acts on besides its own values: the process-wide root
    operation, the handles [Close] was called on (oldest first) and the
    debug log (oldest first). *)
Record World := {
  rootOperation : Operation;
  closed : list waf_Handle;
  logs : list LogEntry
}.

Record appsec := {
  cfg : Config;
  limiter : Limiter;
  wafHandle_ : option wafHandle
}.
End Types.

(** The rules engine (go-libddwaf): compiling a rules document and asking a
    handle for the addresses its rules read. *)
Class Engine `{Opaque} := {
  waf_NewHandle : RulesFragment → string → string → waf_Handle * option error;
  Addresses : waf_Handle → list string
}.

(** What each protocol's listener package can extract from a request. *)
Class Protocols := {
  graphqlsec_SupportsAddress : string → bool;
  grpcsec_SupportsAddress : string → bool;
  httpsec_SupportsAddress : string → bool
}.

(** ** Effects *)

Section Effects.
Context `{Opaque}.

(** Computations that read and change the world. *)
Definition M (A : Type) : Type := World → A * World.

Definition ret {A} (x : A) : M A := λ w, (x, w).

Definition bind {A B} (m : M A) (k : A → M B) : M B :=
  λ w, let '(x, w') := m w in k x w'.

(** Modelled from the spec: [log.Debug] adds one record to the log. *)
Definition log_Debug (fmt : string) (a : list LogArg) : M unit :=
  λ w, (tt, {| rootOperation := rootOperation w;
               closed := closed w;
               logs := logs w ++ [Debug fmt a] |}).

(** [Close] on an engine handle: the call is recorded; what the engine then
    does with the handle is its own business. *)
Definition Close (h : waf_Handle) : M unit :=
  λ w, (tt, {| rootOperation := rootOperation w;
               closed := closed w ++ [h];
               logs := logs w |}).

(** Modelled from the spec: [dyngo.SwapRootOperation] replaces the
    process-wide root. *)
Definition SwapRootOperation (new : Operation) : M unit :=
  λ w, (tt, {| rootOperation := new;
               closed := closed w;
               logs := logs w |}).

(** [defer]: [deferred] runs once [body] has produced the function's
    results, and sees them. *)
Definition defer {A} (deferred : A → M unit) (body : M A) : M A :=
  bind body (λ r, bind (deferred r) (λ _, ret r)).
End Effects.

Notation "x <- c ;; k" := (bind c (λ x, k))
  (at level 100, c at next level, right associativity).
Notation "c ;; k" := (bind c (λ _, k))
  (at level 100, right associativity).

(** ** waf.go

    [SupportedAddressCount] only sizes the address maps and is left out. *)

Definition eventRulesVersionTag := "_dd.appsec.event_rules.version".
Definition eventRulesErrorsTag := "_dd.appsec.event_rules.errors".
Definition eventRulesLoadedTag := "_dd.appsec.event_rules.loaded".
Definition eventRulesFailedTag := "_dd.appsec.event_rules.error_count".
Definition wafDurationTag := "_dd.appsec.waf.duration".
Definition wafDurationExtTag := "_dd.appsec.waf.duration_ext".
Definition wafTimeoutTag := "_dd.appsec.waf.timeouts".
Definition wafVersionTag := "_dd.appsec.waf.version".

Section WAF.
Context `{Engine} `{Protocols}.

Definition actionFromEntry (e : ActionEntry) : M (option Action) :=
  if String.eqb (Type_ e) "block_request" then
    let grpcCode := 10 in
    let grpcCode :=
      match GRPCStatusCode (Parameters e) with
      | Some c => c
      | None => grpcCode
      end in
    ret (Some (NewBlockRequestAction (StatusCode (Parameters e)) grpcCode
                 (Parameters_Type (Parameters e))))
  else if String.eqb (Type_ e) "redirect_request" then
    ret (Some (NewRedirectRequestAction (StatusCode (Parameters e))
                 (Location (Parameters e))))
  else
    log_Debug "appsec: unknown action type `%s`" [ArgString (Type_ e)] ;;
    ret None.

(** The loop of [newWAFHandle] over [rules.Actions]. *)
Fixpoint registerActions (entries : list ActionEntry) (acts : sharedsec_Actions)
  : M sharedsec_Actions :=
  match entries with
  | [] => ret acts
  | entry :: rest =>
      a <- actionFromEntry entry ;;
      match a with
      | Some a => registerActions rest (<[ID entry := a]> acts)
      | None => registerActions rest acts
      end
  end.

Definition newWAFHandle (rules : RulesFragment) (cfg : Config)
  : M (wafHandle * option error) :=
  let '(handle, err) :=
    waf_NewHandle rules (KeyRegex (Obfuscator cfg)) (ValueRegex (Obfuscator cfg)) in
  let acts : sharedsec_Actions :=
    {[ "block" := NewBlockRequestAction 403 10 "auto" ]} in
  acts <- registerActions (Actions rules) acts ;;
  ret ({| Handle := handle; actions := acts |}, err).

(** The address sets of [newWAFEventListeners]: one per protocol, and the
    addresses no protocol supports (in the order met). *)
Record AddressSets := {
  graphQLAddresses : gset string;
  grpcAddresses : gset string;
  httpAddresses : gset string;
  notSupported : list string
}.

Definition noAddresses : AddressSets :=
  {| graphQLAddresses := ∅; grpcAddresses := ∅; httpAddresses := ∅;
     notSupported := [] |}.

(** One iteration of the loop over [ruleAddresses]. *)
Definition checkAddress (s : AddressSets) (address : string) : AddressSets :=
  let supported := false in
  let '(graphQL, supported) :=
    if graphqlsec_SupportsAddress address
    then ({[address]} ∪ graphQLAddresses s, true)
    else (graphQLAddresses s, supported) in
  let '(grpc, supported) :=
    if grpcsec_SupportsAddress address
    then ({[address]} ∪ grpcAddresses s, true)
    else (grpcAddresses s, supported) in
  let '(http, supported) :=
    if httpsec_SupportsAddress address
    then ({[address]} ∪ httpAddresses s, true)
    else (httpAddresses s, supported) in
  let notSupp :=
    if negb supported then notSupported s ++ [address] else notSupported s in
  {| graphQLAddresses := graphQL; grpcAddresses := grpc; httpAddresses := http;
     notSupported := notSupp |}.

Definition checkAddresses (ruleAddresses : list string) : AddressSets :=
  foldl checkAddress noAddresses ruleAddresses.

Definition newWAFEventListeners (waf : wafHandle) (cfg : Config) (l : Limiter)
  : M (list EventListener * option error) :=
  let ruleAddresses := Addresses (Handle waf) in
  if bool_decide (length ruleAddresses = 0%nat) then
    ret ([], Some (errors_New "no addresses found in the rule"))
  else
    let s := checkAddresses ruleAddresses in
    (if bool_decide (0 < length (notSupported s))%nat then
       log_Debug
         "appsec: the addresses present in the rules are partially supported: not supported=%v"
         [ArgStrings (notSupported s)]
     else ret tt) ;;
    let listeners := [] in
    listeners <-
      (if bool_decide (0 < size (graphQLAddresses s))%nat then
         log_Debug
           "appsec: creating the GraphQL waf event listener of the rules addresses %v"
           [ArgAddresses (graphQLAddresses s)] ;;
         ret (listeners ++
              [graphqlsec_NewWAFEventListener (Handle waf) (actions waf)
                 (graphQLAddresses s) (WAFTimeout cfg) l])
       else ret listeners) ;;
    listeners <-
      (if bool_decide (0 < size (grpcAddresses s))%nat then
         log_Debug
           "appsec: creating the grpc waf event listener of the rules addresses %v"
           [ArgAddresses (grpcAddresses s)] ;;
         ret (listeners ++
              [grpcsec_NewWAFEventListener (Handle waf) (actions waf)
                 (grpcAddresses s) (WAFTimeout cfg) l])
       else ret listeners) ;;
    listeners <-
      (if bool_decide (0 < size (httpAddresses s))%nat then
         log_Debug
           "appsec: creating http waf event listener of the rules addresses %v"
           [ArgAddresses (httpAddresses s)] ;;
         ret (listeners ++
              [httpsec_NewWAFEventListener (Handle waf) (actions waf)
                 (httpAddresses s) (WAFTimeout cfg) (APISec cfg) l])
       else ret listeners) ;;
    ret (listeners, None).

(** [swapWAF] has the receiver [a] updated in place; here it returns the
    updated receiver next to the error. *)
Definition swapWAF (a : appsec) (rules : RulesFragment) : M (appsec * option error) :=
  r <- newWAFHandle rules (cfg a) ;;
  let '(newHandle, err) := r in
  match err with
  | Some e => ret (a, Some e)
  | None =>
      (* Close the WAF handle in case of an error in what's following *)
      defer (λ '(_, err), if err is Some _ then Close (Handle newHandle) else ret tt)
        (r <- newWAFEventListeners newHandle (cfg a) (limiter a) ;;
         let '(ls, err) := r in
         match err with
         | Some e => ret (a, Some e)
         | None =>
             (* Register the event listeners *)
             let newRoot := foldl On NewRootOperation ls in
             (* Hot-swap the root operation *)
             SwapRootOperation newRoot ;;
             (* Close old handle *)
             let oldHandle := wafHandle_ a in
             let a := {| cfg := cfg a; limiter := limiter a;
                         wafHandle_ := Some newHandle |} in
             (if oldHandle is Some old then Close (Handle old) else ret tt) ;;
             ret (a, None)
         end)
  end.

End WAF.

(** ** Running a computation *)

Definition eval `{Opaque} {A} (m : M A) (w : World) : A := fst (m w).
Definition exec `{Opaque} {A} (m : M A) (w : World) : World := snd (m w).

(** ** Specification-side definitions *)

(** The action a configuration entry declares, if its type is a known one. *)
Definition declaredAction (e : ActionEntry) : option Action :=
  if decide (Type_ e = "block_request") then
    Some (NewBlockRequestAction (StatusCode (Parameters e))
            (default 10 (GRPCStatusCode (Parameters e)))
            (Parameters_Type (Parameters e)))
  else if decide (Type_ e = "redirect_request") then
    Some (NewRedirectRequestAction (StatusCode (Parameters e)) (Location (Parameters e)))
  else None.

(** The action the entries declare for [id]: that of the last entry with this
    id among those that declare one (a later entry overrides an earlier). *)
Fixpoint overriding (id : string) (entries : list ActionEntry) : option Action :=
  match entries with
  | [] => None
  | e :: rest =>
      match overriding id rest with
      | Some a => Some a
      | None => if decide (ID e = id) then declaredAction e else None
      end
  end.

(** The debug records of the entries of unknown type, in order. *)
Definition unknownTypeLogs (entries : list ActionEntry) : list LogEntry :=
  omap (λ e, match declaredAction e with
             | Some _ => None
             | None => Some (Debug "appsec: unknown action type `%s`" [ArgString (Type_ e)])
             end) entries.

Definition defaultBlock : Action := NewBlockRequestAction 403 10 "auto".

Definition addLogs `{Opaque} (w : World) (l : list LogEntry) : World :=
  {| rootOperation := rootOperation w; closed := closed w; logs := logs w ++ l |}.

(** The registry the loop of [newWAFHandle] leaves, without the effects. *)
Definition registered (entries : list ActionEntry) (acts : sharedsec_Actions)
  : sharedsec_Actions :=
  foldl (λ acts e, if declaredAction e is Some a then <[ID e := a]> acts else acts)
    acts entries.

(** The addresses of [required] a protocol supports: the intersection of the
    protocol's supported set with the required set. *)
Definition supportedRequired (supports : string → bool) (required : list string)
  : gset string :=
  list_to_set (List.filter supports required).

(** The listeners the factory is to build for the addresses [required]: one
    per protocol whose intersection is not empty, GraphQL first, then gRPC,
    then HTTP. *)
Definition expectedListeners `{Engine} `{Protocols}
    (waf : wafHandle) (cfg : Config) (l : Limiter) (required : list string)
  : list EventListener :=
  let graphQL := supportedRequired graphqlsec_SupportsAddress required in
  let grpc := supportedRequired grpcsec_SupportsAddress required in
  let http := supportedRequired httpsec_SupportsAddress required in
  (if decide (graphQL = ∅) then []
   else [graphqlsec_NewWAFEventListener (Handle waf) (actions waf) graphQL
           (WAFTimeout cfg) l])
  ++ (if decide (grpc = ∅) then []
      else [grpcsec_NewWAFEventListener (Handle waf) (actions waf) grpc
              (WAFTimeout cfg) l])
  ++ (if decide (http = ∅) then []
      else [httpsec_NewWAFEventListener (Handle waf) (actions waf) http
              (WAFTimeout cfg) (APISec cfg) l]).

(** The required addresses no protocol supports, in order. *)
Definition unsupported `{Protocols} (required : list string) : list string :=
  List.filter (λ a, negb (graphqlsec_SupportsAddress a || grpcsec_SupportsAddress a
                          || httpsec_SupportsAddress a)) required.

(** The debug records of a listener construction that goes through. *)
Definition factoryLogs `{Protocols} (required : list string) : list LogEntry :=
  let graphQL := supportedRequired graphqlsec_SupportsAddress required in
  let grpc := supportedRequired grpcsec_SupportsAddress required in
  let http := supportedRequired httpsec_SupportsAddress required in
  (if decide (unsupported required = []) then []
   else [Debug
           "appsec: the addresses present in the rules are partially supported: not supported=%v"
           [ArgStrings (unsupported required)]])
  ++ (if decide (graphQL = ∅) then []
      else [Debug
              "appsec: creating the GraphQL waf event listener of the rules addresses %v"
              [ArgAddresses graphQL]])
  ++ (if decide (grpc = ∅) then []
      else [Debug "appsec: creating the grpc waf event listener of the rules addresses %v"
              [ArgAddresses grpc]])
  ++ (if decide (http = ∅) then []
      else [Debug "appsec: creating http waf event listener of the rules addresses %v"
              [ArgAddresses http]]).

Definition addClosed `{Opaque} (w : World) (hs : list waf_Handle) : World :=
  {| rootOperation := rootOperation w; closed := closed w ++ hs; logs := logs w |}.

Definition setRoot `{Opaque} (w : World) (root : Operation) : World :=
  {| rootOperation := root; closed := closed w; logs := logs w |}.

(** The handle [newWAFHandle] builds, and the engine's verdict on the rules. *)
Definition builtHandle `{Engine} (rules : RulesFragment) (cfg : Config) : wafHandle :=
  {| Handle := fst (waf_NewHandle rules (KeyRegex (Obfuscator cfg))
                       (ValueRegex (Obfuscator cfg)));
     actions := registered (Actions rules) {[ "block" := defaultBlock ]} |}.

Definition compileError `{Engine} (rules : RulesFragment) (cfg : Config) : option error :=
  snd (waf_NewHandle rules (KeyRegex (Obfuscator cfg)) (ValueRegex (Obfuscator cfg))).

(** ** Rules diagnostics and their monitoring tags *)

(** Modelled from the spec: JSON text for a [map[string][]string], the
    format of the errors tag: an object whose members are arrays of strings.
    Text is written without white space; in a string the quote and the
    backslash are escaped with a backslash and a control character as
    [\u00XY]. *)
Module json.
Local Open Scope string_scope.

Definition quote : ascii := Eval cbv in ascii_of_nat 34.
Definition backslash : ascii := Eval cbv in ascii_of_nat 92.

Definition hexDigit (n : nat) : ascii :=
  if (n <? 10)%nat then ascii_of_nat (48 + n) else ascii_of_nat (87 + n).

Definition hexValue (c : ascii) : option nat :=
  let n := nat_of_ascii c in
  if ((48 <=? n) && (n <=? 57))%nat then Some (n - 48)%nat
  else if ((97 <=? n) && (n <=? 102))%nat then Some (n - 87)%nat
  else if ((65 <=? n) && (n <=? 70))%nat then Some (n - 55)%nat
  else None.

Definition escapeChar (c : ascii) : string :=
  if Ascii.eqb c quote then String backslash (String quote "")
  else if Ascii.eqb c backslash then String backslash (String backslash "")
  else if (nat_of_ascii c <? 32)%nat then
    String backslash
      (String "u" (String "0" (String "0"
         (String (hexDigit (nat_of_ascii c / 16))
            (String (hexDigit (nat_of_ascii c mod 16)) "")))))
  else String c "".

Fixpoint escape (s : string) : string :=
  match s with
  | "" => ""
  | String c s => escapeChar c ++ escape s
  end.

Definition writeString (s : string) : string :=
  String quote (escape s ++ String quote "").

(** Items separated by commas: the first, then each other after a comma. *)
Fixpoint writeMore {A} (write : A → string) (xs : list A) : string :=
  match xs with
  | [] => ""
  | y :: ys => "," ++ write y ++ writeMore write ys
  end.

Definition writeItems {A} (write : A → string) (l : list A) : string :=
  match l with
  | [] => ""
  | x :: xs => write x ++ writeMore write xs
  end.

Definition writeArray (l : list string) : string :=
  "[" ++ writeItems writeString l ++ "]".

Definition writeMember (m : string * list string) : string :=
  writeString (fst m) ++ ":" ++ writeArray (snd m).

Definition writeObject (l : list (string * list string)) : string :=
  "{" ++ writeItems writeMember l ++ "}".

(** Reading: each reader returns what it read and the text left. *)
Definition cons1 (c : ascii) (r : option (string * string)) : option (string * string) :=
  match r with Some (s, rest) => Some (String c s, rest) | None => None end.

(** The characters of a string up to its closing quote. *)
Fixpoint readChars (s : string) : option (string * string) :=
  match s with
  | "" => None
  | String c s' =>
      if Ascii.eqb c quote then Some ("", s')
      else if Ascii.eqb c backslash then
        match s' with
        | String e s'' =>
            if Ascii.eqb e quote then cons1 quote (readChars s'')
            else if Ascii.eqb e backslash then cons1 backslash (readChars s'')
            else if Ascii.eqb e "/" then cons1 "/" (readChars s'')
            else if Ascii.eqb e "b" then cons1 (ascii_of_nat 8) (readChars s'')
            else if Ascii.eqb e "f" then cons1 (ascii_of_nat 12) (readChars s'')
            else if Ascii.eqb e "n" then cons1 (ascii_of_nat 10) (readChars s'')
            else if Ascii.eqb e "r" then cons1 (ascii_of_nat 13) (readChars s'')
            else if Ascii.eqb e "t" then cons1 (ascii_of_nat 9) (readChars s'')
            else if Ascii.eqb e "u" then
              match s'' with
              | String "0" (String "0" (String x (String y s3))) =>
                  match hexValue x, hexValue y with
                  | Some h, Some l => cons1 (ascii_of_nat (16 * h + l)) (readChars s3)
                  | _, _ => None
                  end
              | _ => None
              end
            else None
        | "" => None
        end
      else if (nat_of_ascii c <? 32)%nat then None
      else cons1 c (readChars s')
  end.

Definition readString (s : string) : option (string * string) :=
  match s with
  | String c s' => if Ascii.eqb c quote then readChars s' else None
  | "" => None
  end.

(** Items separated by commas, up to the closing character. *)
Fixpoint readItems {A} (read : string → option (A * string)) (close : ascii)
    (fuel : nat) (s : string) : option (list A * string) :=
  match fuel with
  | O => None
  | S fuel =>
      match read s with
      | Some (x, String c rest) =>
          if Ascii.eqb c "," then
            match readItems read close fuel rest with
            | Some (xs, rest) => Some (x :: xs, rest)
            | None => None
            end
          else if Ascii.eqb c close then Some ([x], rest)
          else None
      | _ => None
      end
  end.

Definition readList {A} (read : string → option (A * string)) (open close : ascii)
    (fuel : nat) (s : string) : option (list A * string) :=
  match s with
  | String o s' =>
      if Ascii.eqb o open then
        match s' with
        | String c rest =>
            if Ascii.eqb c close then Some ([], rest)
            else readItems read close fuel s'
        | "" => None
        end
      else None
  | "" => None
  end.

Definition readArray (fuel : nat) (s : string) : option (list string * string) :=
  readList readString "[" "]" fuel s.

Definition readMember (fuel : nat) (s : string)
  : option ((string * list string) * string) :=
  match readString s with
  | Some (k, String c rest) =>
      if Ascii.eqb c ":" then
        match readArray fuel rest with
        | Some (v, rest) => Some ((k, v), rest)
        | None => None
        end
      else None
  | _ => None
  end.

Definition readObject (fuel : nat) (s : string)
  : option (list (string * list string) * string) :=
  readList (readMember fuel) "{" "}" fuel s.
End json.

(** Modelled from the spec: encoding/json on a [map[string][]string], as far
    as the errors tag needs it.  [json_Marshal] writes the map as one JSON
    object; [json_Unmarshal] reads such a text back, and fails on anything
    else. *)
Definition json_Marshal (m : gmap string (list string)) : string :=
  json.writeObject (map_to_list m).

Definition json_Unmarshal (s : string) : option (gmap string (list string)) :=
  match json.readObject (String.length s) s with
  | Some (members, EmptyString) => Some (list_to_map members)
  | _ => None
  end.

(** The diagnostics of a compile (go-libddwaf), as the test of the tags
    builds them. *)
Record DiagnosticEntry := {
  Loaded : list string;
  Failed : list string;
  Errors : gmap string (list string)
}.

Record Diagnostics := {
  Version : string;
  Rules_ : option DiagnosticEntry
}.

(** Modelled from the spec: the tags holder of package trace is not part of
    the sources at hand.  It maps a tag key to a string, an integer or a
    boolean. *)
Inductive TagValue :=
| TagString (s : string)
| TagInt (n : Z)
| TagBool (b : bool).

Abbreviation TagsHolder := (gmap string TagValue).

(** Modelled from the spec: [trace.NewTagsHolder], an empty holder. *)
Definition NewTagsHolder : TagsHolder := ∅.

(** Modelled from the spec: [AddTag] sets the value of a key. *)
Definition AddTag (th : TagsHolder) (key : string) (value : TagValue) : TagsHolder :=
  <[key := value]> th.

(** Modelled from the spec: [Tags], the tags held. *)
Definition Tags (th : TagsHolder) : gmap string TagValue := th.

(** Modelled from the spec: [AddRulesMonitoringTags] of the sharedsec listener
    package is not part of the sources at hand (its test is).  After a
    compile it writes the version, the counts of loaded and of failed rules,
    and the map from error message to rule ids serialized as one string
    tag; diagnostics without a rules entry leave the holder as it is. *)
Definition AddRulesMonitoringTags (th : TagsHolder) (wafDiags : Diagnostics)
  : TagsHolder :=
  match Rules_ wafDiags with
  | None => th
  | Some rInfo =>
      let th := AddTag th eventRulesErrorsTag (TagString (json_Marshal (Errors rInfo))) in
      let th := AddTag th eventRulesLoadedTag (TagInt (Z.of_nat (length (Loaded rInfo)))) in
      let th := AddTag th eventRulesFailedTag (TagInt (Z.of_nat (length (Failed rInfo)))) in
      AddTag th eventRulesVersionTag (TagString (Version wafDiags))
  end.

(** The diagnostics of the tags test. *)
Definition testDiagnostics : Diagnostics :=
  {| Version := "1.3.0";
     Rules_ := Some {| Loaded := ["0"; "1"; "2"; "3"; "4"; "5"; "6"; "7"; "8"; "9"];
                       Failed := ["1337"];
                       Errors := {[ "test" := ["1"; "2"] ]} |} |}.

(** ** A sample instance

    A small engine and capability tables to run the package on: a rules
    document is the list of addresses its rules read, compiling the document
    [["invalid"]] fails, and a handle is a number paired with its addresses. *)
Module Sample.

#[export] Instance opaque : Opaque := {|
  RulesDoc := list string;
  waf_Handle := nat * list string;
  Limiter := unit;
  APISecConfig := bool
|}.

#[export] Instance engine : Engine := {|
  waf_NewHandle rules _ _ :=
    if bool_decide (Rules rules = ["invalid"])
    then ((0%nat, []), Some (errors_New "invalid rules"))
    else ((length (Rules rules), Rules rules), None);
  Addresses h := snd h
|}.

#[export] Instance protocols : Protocols := {|
  graphqlsec_SupportsAddress a :=
    bool_decide (a ∈ ["graphql.server.all_resolvers"; "graphql.server.resolver"]);
  grpcsec_SupportsAddress a :=
    bool_decide (a ∈ ["grpc.server.request.message"; "grpc.server.request.metadata";
                      "http.client_ip"; "usr.id"]);
  httpsec_SupportsAddress a :=
    bool_decide (a ∈ ["server.request.method"; "server.request.uri.raw";
                      "server.request.body"; "http.client_ip"; "usr.id"])
|}.

Definition config : Config :=
  {| Obfuscator := {| KeyRegex := "passw"; ValueRegex := "token" |};
     WAFTimeout := 4000;
     APISec := true |}.

Definition world : World :=
  {| rootOperation := NewRootOperation; closed := []; logs := [] |}.

Definition block418 : ActionEntry :=
  {| ID := "block"; Type_ := "block_request";
     Parameters := {| StatusCode := 418; GRPCStatusCode := None;
                      Parameters_Type := "json"; Location := "" |} |}.

Definition redirect301 : ActionEntry :=
  {| ID := "redirect-1"; Type_ := "redirect_request";
     Parameters := {| StatusCode := 301; GRPCStatusCode := None;
                      Parameters_Type := ""; Location := "/blocked" |} |}.

(** An entry with id [block] whose type is not a known one. *)
Definition monitorBlock : ActionEntry :=
  {| ID := "block"; Type_ := "monitor";
     Parameters := {| StatusCode := 200; GRPCStatusCode := None;
                      Parameters_Type := ""; Location := "" |} |}.

(** An entry of unknown type under an id of its own. *)
Definition monitorOther : ActionEntry :=
  {| ID := "audit"; Type_ := "monitor";
     Parameters := {| StatusCode := 200; GRPCStatusCode := None;
                      Parameters_Type := ""; Location := "" |} |}.

Definition rulesWith (addresses : list string) (entries : list ActionEntry)
  : RulesFragment :=
  {| Rules := addresses; Actions := entries |}.

(** A manager with no handle yet, and one whose current handle is [old]. *)
Definition fresh : appsec :=
  {| cfg := config; limiter := tt; wafHandle_ := None |}.

Definition old : wafHandle :=
  {| Handle := (7%nat, ["server.request.body"]);
     actions := {[ "block" := defaultBlock ]} |}.

Definition running : appsec :=
  {| cfg := config; limiter := tt; wafHandle_ := Some old |}.

(** A handle whose rules read an address of gRPC and HTTP, one of HTTP only
    and one of no protocol. *)
Definition mixed : wafHandle :=
  {| Handle := (1%nat, ["http.client_ip"; "server.request.body"; "x.y"]);
     actions := {[ "block" := defaultBlock ]} |}.

End Sample.

(** ** What a listener is bound to *)

Section ListenerFields.
Context `{Opaque}.

(** The engine handle a listener evaluates on. *)
Definition listenerHandle (l : EventListener) : waf_Handle :=
  match l with
  | graphqlsec_NewWAFEventListener h _ _ _ _ => h
  | grpcsec_NewWAFEventListener h _ _ _ _ => h
  | httpsec_NewWAFEventListener h _ _ _ _ _ => h
  end.

(** The action registry a listener looks actions up in. *)
Definition listenerActions (l : EventListener) : sharedsec_Actions :=
  match l with
  | graphqlsec_NewWAFEventListener _ acts _ _ _ => acts
  | grpcsec_NewWAFEventListener _ acts _ _ _ => acts
  | httpsec_NewWAFEventListener _ acts _ _ _ _ => acts
  end.

(** The addresses a listener is bound to. *)
Definition listenerAddresses (l : EventListener) : gset string :=
  match l with
  | graphqlsec_NewWAFEventListener _ _ addresses _ _ => addresses
  | grpcsec_NewWAFEventListener _ _ addresses _ _ => addresses
  | httpsec_NewWAFEventListener _ _ addresses _ _ _ => addresses
  end.
End ListenerFields.

(** Whether the type of an entry is one [actionFromEntry] knows. *)
Definition knownType (e : ActionEntry) : bool :=
  String.eqb (Type_ e) "block_request" || String.eqb (Type_ e) "redirect_request".

(** ** The mock span of the AppSec tests (internal/appsec/_testlib/mockspan.go) *)

(** A value of Go's [interface{}], as far as span tags go: its dynamic type
    and its value.  Two values are equal when both agree. *)
Inductive any :=
| anyNil
| anyBool (b : bool)
| anyString (s : string)
| anyInt (n : Z)
| anySamplerName (n : Z).

#[export] Instance any_eq_dec : EqDecision any.
Proof. solve_decision. Defined.

(** The constants the mock span compares with: the tag key [ext.ManualKeep]
    and the sampler name [samplernames.AppSec].  Their values are declared
    outside the sources at hand. *)
Class TagConstants := {
  ext_ManualKeep : string;
  samplernames_AppSec : Z
}.

Module testlib.

(** [Tags] is a Go map: [None] is the nil map a fresh span has. *)
Record MockSpan := {
  Tags : option (gmap string any);
  Finished : bool
}.

(** Reading [m.Tags[key]]; a nil map reads as an empty one. *)
Definition Tag (m : MockSpan) (key : string) : option any :=
  match Tags m with
  | Some tags => tags !! key
  | None => None
  end.

Section MockSpan.
Context `{TagConstants}.

Definition SetTag (m : MockSpan) (key : string) (value : any) : MockSpan :=
  let tags := match Tags m with Some tags => tags | None => ∅ end in
  if decide (key = ext_ManualKeep) then
    if decide (value = anySamplerName samplernames_AppSec) then
      {| Tags := Some (<[ext_ManualKeep := anyBool true]> tags);
         Finished := Finished m |}
    else {| Tags := Some tags; Finished := Finished m |}
  else {| Tags := Some (<[key := value]> tags); Finished := Finished m |}.

(** [Finish] takes options and ignores them. *)
Definition Finish (m : MockSpan) : MockSpan :=
  {| Tags := Tags m; Finished := true |}.

(** A run of [SetTag] calls, first to last. *)
Definition SetTags (m : MockSpan) (calls : list (string * any)) : MockSpan :=
  foldl (λ m call, SetTag m (fst call) (snd call)) m calls.
End MockSpan.

End testlib.

(** ** gRPC span tags (internal/appsec/trace/grpctrace/grpc.go) *)

(** What [SetRequestMetadataTags] needs of a [ddtrace.Span]. *)
Class Span (S : Type) := { span_SetTag : S → string → any → S }.

(** The mock span is a [ddtrace.Span]. *)
#[export] Instance MockSpan_Span `{TagConstants} : Span testlib.MockSpan :=
  {| span_SetTag := testlib.SetTag |}.

(** [httptrace.NormalizeHTTPHeaders], declared outside the sources at hand:
    from the gRPC metadata to one string per header. *)
Class Httptrace := {
  NormalizeHTTPHeaders : gmap string (list string) → gmap string string
}.

(** Go ranges over a map in an order of its own choosing.  [range] stands for
    that choice: it lists the entries of a map, and is an order a run may
    take when the list is a permutation of the entries. *)
Definition rangeOrder {V} (range : gmap string V → list (string * V))
    (m : gmap string V) : Prop :=
  range m ≡ₚ map_to_list m.

Module grpctrace.

Definition SetRequestMetadataTags {S} `{Span S} `{Httptrace}
    (range : gmap string string → list (string * string))
    (span : S) (md : gmap string (list string)) : S :=
  foldl (λ span hv,
           span_SetTag span ("grpc.metadata." +:+ fst hv) (anyString (snd hv)))
    span (range (NormalizeHTTPHeaders md)).

End grpctrace.

(** Sample values of the constants, and a span of the tests. *)
Module SampleSpan.
#[export] Instance constants : TagConstants :=
  {| ext_ManualKeep := "manual.keep"; samplernames_AppSec := 5 |}.

#[export] Instance httptrace : Httptrace :=
  {| NormalizeHTTPHeaders md := (λ vs, default "" (head vs)) <$> md |}.

Definition fresh : testlib.MockSpan :=
  {| testlib.Tags := None; testlib.Finished := false |}.

Definition metadata : gmap string (list string) :=
  {[ "user-agent" := ["grpc-go"]; "x-client-ip" := ["1.2.3.4"] ]}.
End SampleSpan.

(** ** Router options (contrib/julienschmidt/httprouter)

    A Go [float64] is a binary64 float, here [PrimFloat.float]; [math.NaN()]
    is [PrimFloat.nan], [math.IsNaN] is [PrimFloat.is_nan], and [x >= y] is
    [PrimFloat.leb y x]. *)

From Stdlib Require PrimFloat.

(** What the package uses and does not define: the span options of the
    tracer with [tracer.Tag], the traced router of julienschmidt, the tag
    names of package ext, the environment, the global configuration, the
    naming schema and the lock map of the header tags. *)
Class RouterEnv := {
  StartSpanOption : Type;
  LockMap : Type;
  Mux : Type;
  julienschmidt_New : Mux;
  tracer_Tag_float : string → PrimFloat.float → StartSpanOption;
  tracer_Tag_string : string → string → StartSpanOption;
  ext_EventSampleRate : string;
  ext_SpanKind : string;
  ext_SpanKindServer : string;
  ext_Component : string;
  internal_BoolEnv : string → bool → bool;
  globalconfig_AnalyticsRate : PrimFloat.float;
  globalconfig_HeaderTagMap : LockMap;
  namingschema_ServiceName : string → string;
  internal_NewLockMap_HeaderTagSlice : list string → LockMap
}.

Module httprouter.
Section Router.
Context `{RouterEnv}.

Definition componentName := "julienschmidt/httprouter".
Definition defaultServiceName := "http.router".

(** [headerTags] is a pointer: [None] is nil. *)
Record routerConfig := {
  serviceName : string;
  spanOpts : list StartSpanOption;
  analyticsRate : PrimFloat.float;
  headerTags : option LockMap
}.

(** A [RouterOption] updates the configuration it is given. *)
Definition RouterOption : Type := routerConfig → routerConfig.

(** [new(routerConfig)]: the zero value. *)
Definition zeroConfig : routerConfig :=
  {| serviceName := ""; spanOpts := []; analyticsRate := PrimFloat.zero;
     headerTags := None |}.

Definition defaults (cfg : routerConfig) : routerConfig :=
  let rate :=
    if internal_BoolEnv "DD_TRACE_HTTPROUTER_ANALYTICS_ENABLED" false
    then PrimFloat.one
    else globalconfig_AnalyticsRate in
  {| serviceName := namingschema_ServiceName defaultServiceName;
     spanOpts := spanOpts cfg;
     analyticsRate := rate;
     headerTags := Some globalconfig_HeaderTagMap |}.

Definition WithServiceName (name : string) : RouterOption :=
  λ cfg, {| serviceName := name; spanOpts := spanOpts cfg;
            analyticsRate := analyticsRate cfg; headerTags := headerTags cfg |}.

Definition WithSpanOptions (opts : list StartSpanOption) : RouterOption :=
  λ cfg, {| serviceName := serviceName cfg; spanOpts := opts;
            analyticsRate := analyticsRate cfg; headerTags := headerTags cfg |}.

Definition WithAnalytics (on : bool) : RouterOption :=
  λ cfg, {| serviceName := serviceName cfg; spanOpts := spanOpts cfg;
            analyticsRate := if on then PrimFloat.one else PrimFloat.nan;
            headerTags := headerTags cfg |}.

Definition WithAnalyticsRate (rate : PrimFloat.float) : RouterOption :=
  λ cfg, {| serviceName := serviceName cfg; spanOpts := spanOpts cfg;
            analyticsRate :=
              if PrimFloat.leb PrimFloat.zero rate && PrimFloat.leb rate PrimFloat.one
              then rate else PrimFloat.nan;
            headerTags := headerTags cfg |}.

Definition WithHeaderTags (headers : list string) : RouterOption :=
  let headerTagsMap := internal_NewLockMap_HeaderTagSlice headers in
  λ cfg, {| serviceName := serviceName cfg; spanOpts := spanOpts cfg;
            analyticsRate := analyticsRate cfg;
            headerTags := Some headerTagsMap |}.

Record Router := {
  Router_ : Mux;
  config : routerConfig
}.

(** The debug record of [New]: the format and the configuration. *)
Record LogRecord := Debug { format : string; arg : routerConfig }.

Definition appendSpanOpt (cfg : routerConfig) (o : StartSpanOption) : routerConfig :=
  {| serviceName := serviceName cfg; spanOpts := spanOpts cfg ++ [o];
     analyticsRate := analyticsRate cfg; headerTags := headerTags cfg |}.

(** [New] returns the router; the debug record it writes comes with it. *)
Definition New (opts : list RouterOption) : Router * list LogRecord :=
  let cfg := zeroConfig in
  let cfg := defaults cfg in
  let cfg := foldl (λ cfg fn, fn cfg) cfg opts in
  let cfg :=
    if negb (PrimFloat.is_nan (analyticsRate cfg))
    then appendSpanOpt cfg (tracer_Tag_float ext_EventSampleRate (analyticsRate cfg))
    else cfg in
  let cfg := appendSpanOpt cfg (tracer_Tag_string ext_SpanKind ext_SpanKindServer) in
  let cfg := appendSpanOpt cfg (tracer_Tag_string ext_Component componentName) in
  ({| Router_ := julienschmidt_New; config := cfg |},
   [Debug "contrib/julienschmidt/httprouter: Configuring Router: %#v" cfg]).

(** The options the package hands out. *)
Inductive exported : RouterOption → Prop :=
| exported_WithServiceName name : exported (WithServiceName name)
| exported_WithSpanOptions opts : exported (WithSpanOptions opts)
| exported_WithAnalytics on : exported (WithAnalytics on)
| exported_WithAnalyticsRate rate : exported (WithAnalyticsRate rate)
| exported_WithHeaderTags headers : exported (WithHeaderTags headers).

(** A rate that switches analytics off (NaN) or lies between 0 and 1. *)
Definition validRate (rate : PrimFloat.float) : Prop :=
  PrimFloat.is_nan rate = true
  ∨ (PrimFloat.leb PrimFloat.zero rate = true
     ∧ PrimFloat.leb rate PrimFloat.one = true).
End Router.
End httprouter.

(** A sample environment of the router. *)
Module SampleRouter.
#[export] Instance env : RouterEnv := {|
  StartSpanOption := string * string;
  LockMap := list string;
  Mux := unit;
  julienschmidt_New := tt;
  tracer_Tag_float k v :=
    (k, if PrimFloat.is_nan v then "NaN"
        else if PrimFloat.eqb v PrimFloat.one then "1" else "rate");
  tracer_Tag_string k v := (k, v);
  ext_EventSampleRate := "_dd1.sr.eausr";
  ext_SpanKind := "span.kind";
  ext_SpanKindServer := "server";
  ext_Component := "component";
  internal_BoolEnv _ def := def;
  globalconfig_AnalyticsRate := PrimFloat.nan;
  globalconfig_HeaderTagMap := [];
  namingschema_ServiceName name := name;
  internal_NewLockMap_HeaderTagSlice headers := headers
|}.

(** A span option of the sample tracer. *)
Definition tag (k v : string) : StartSpanOption := (k, v).
End SampleRouter.

(** More sample values for the package. *)
Module SampleMore.
Import Sample.

(** A block entry that names its gRPC code. *)
Definition block401 : ActionEntry :=
  {| ID := "block-401"; Type_ := "block_request";
     Parameters := {| StatusCode := 401; GRPCStatusCode := Some 7;
                      Parameters_Type := "html"; Location := "" |} |}.

(** The addresses of [mixed] in another order and with repetitions. *)
Definition shuffled : wafHandle :=
  {| Handle := (2%nat, ["x.y"; "server.request.body"; "http.client_ip"; "x.y";
                        "http.client_ip"]);
     actions := {[ "block" := defaultBlock ]} |}.

Definition bodyRules : RulesFragment :=
  rulesWith ["server.request.body"] [redirect301; block401].

Definition ipRules : RulesFragment :=
  rulesWith ["http.client_ip"; "usr.id"] [].
End SampleMore.

(** * Properties *)

(** ** Action entries and the action registry *)

Section ActionFacts.
Context `{Engine}.

Lemma addLogs_nil (w : World) : addLogs w [] = w.
Proof. destruct w; unfold addLogs; simpl. by rewrite app_nil_r. Qed.

Lemma addLogs_app (w : World) l1 l2 :
  addLogs (addLogs w l1) l2 = addLogs w (l1 ++ l2).
Proof. unfold addLogs; simpl. by rewrite app_assoc. Qed.

(** [actionFromEntry] computes [declaredAction], and logs exactly when the
    type is unknown. *)
Lemma actionFromEntry_run (e : ActionEntry) (w : World) :
  actionFromEntry e w = (declaredAction e, addLogs w (unknownTypeLogs [e])).
Proof.
  unfold actionFromEntry, declaredAction, unknownTypeLogs; simpl.
  unfold declaredAction.
  destruct (String.eqb_spec (Type_ e) "block_request") as [Hb|Hb].
  - rewrite decide_True by done. unfold ret.
    rewrite addLogs_nil. by destruct (GRPCStatusCode (Parameters e)).
  - rewrite (decide_False (P := Type_ e = "block_request")) by done.
    destruct (String.eqb_spec (Type_ e) "redirect_request") as [Hr|Hr].
    + rewrite decide_True by done. unfold ret. by rewrite addLogs_nil.
    + rewrite decide_False by done. reflexivity.
Qed.

Lemma unknownTypeLogs_app (l1 l2 : list ActionEntry) :
  unknownTypeLogs (l1 ++ l2) = unknownTypeLogs l1 ++ unknownTypeLogs l2.
Proof. unfold unknownTypeLogs. apply omap_app. Qed.

Lemma registerActions_run (entries : list ActionEntry) (acts : sharedsec_Actions) (w : World) :
  registerActions entries acts w
  = (registered entries acts, addLogs w (unknownTypeLogs entries)).
Proof.
  revert acts w. induction entries as [|e rest IH]; intros acts w.
  - simpl. unfold ret. by rewrite addLogs_nil.
  - cbn [registerActions]. unfold bind at 1. rewrite actionFromEntry_run.
    change (e :: rest) with ([e] ++ rest) at 2. rewrite unknownTypeLogs_app.
    rewrite <- addLogs_app.
    destruct (declaredAction e) as [a|] eqn:Ha; rewrite IH; simpl; by rewrite Ha.
Qed.
End ActionFacts.

Section RegistryFacts.
Context `{Engine}.

Lemma registered_app (l1 l2 : list ActionEntry) (acts : sharedsec_Actions) :
  registered (l1 ++ l2) acts = registered l2 (registered l1 acts).
Proof. unfold registered. apply foldl_app. Qed.

(** What the registry holds under [id] once the entries are registered. *)
Lemma registered_lookup
    (entries : list ActionEntry) (acts : sharedsec_Actions) (id : string) :
  registered entries acts !! id
  = match overriding id entries with Some a => Some a | None => acts !! id end.
Proof.
  revert acts. induction entries as [|e rest IH]; intros acts; [done|].
  change (registered (e :: rest) acts)
    with (registered rest
            (if declaredAction e is Some a then <[ID e := a]> acts else acts)).
  rewrite IH. simpl. destruct (overriding id rest) as [a'|]; [done|].
  destruct (declaredAction e) as [a|] eqn:Ha.
  - destruct (decide (ID e = id)) as [->|Hne].
    + by rewrite lookup_insert_eq.
    + by rewrite lookup_insert_ne.
  - by destruct (decide (ID e = id)).
Qed.

Lemma overriding_none (id : string) (entries : list ActionEntry) :
  (∀ e, e ∈ entries → ID e = id → declaredAction e = None) →
  overriding id entries = None.
Proof.
  induction entries as [|e rest IH]; intros Hall; [done|].
  simpl. rewrite IH.
  - destruct (decide (ID e = id)); [|done]. apply Hall; [left|done].
  - intros e' He'. apply Hall. by right.
Qed.

Lemma overriding_last (id : string) (pre post : list ActionEntry) (e : ActionEntry) a :
  ID e = id → declaredAction e = Some a →
  (∀ e', e' ∈ post → ID e' = id → declaredAction e' = None) →
  overriding id (pre ++ e :: post) = Some a.
Proof.
  intros Hid Ha Hpost. induction pre as [|p pre IH].
  - simpl. rewrite (overriding_none id post Hpost).
    by rewrite decide_True.
  - simpl. by rewrite IH.
Qed.

Lemma overriding_drop (id : string) (pre post : list ActionEntry) (e : ActionEntry) :
  declaredAction e = None →
  overriding id (pre ++ e :: post) = overriding id (pre ++ post).
Proof.
  intros He. induction pre as [|p pre IH].
  - simpl. rewrite He. destruct (overriding id post); [done|].
    by destruct (decide (ID e = id)).
  - simpl. by rewrite IH.
Qed.

Lemma newWAFHandle_run (rules : RulesFragment) (cfg : Config) (w : World) :
  newWAFHandle rules cfg w
  = ((builtHandle rules cfg, compileError rules cfg),
     addLogs w (unknownTypeLogs (Actions rules))).
Proof.
  unfold newWAFHandle, builtHandle, compileError.
  destruct (waf_NewHandle rules _ _) as [handle err]. simpl.
  unfold bind. by rewrite registerActions_run.
Qed.

Lemma declaredAction_unknown (e : ActionEntry) :
  Type_ e ≠ "block_request" → Type_ e ≠ "redirect_request" →
  declaredAction e = None.
Proof. intros Hb Hr. unfold declaredAction. by rewrite !decide_False. Qed.
End RegistryFacts.

(** ** The listener factory *)

Section FactoryFacts.
Context `{Engine} `{Protocols}.

Lemma elem_of_supportedRequired (supports : string → bool) (required : list string) x :
  x ∈ supportedRequired supports required ↔ x ∈ required ∧ supports x = true.
Proof.
  unfold supportedRequired. rewrite elem_of_list_to_set, !list_elem_of_In, filter_In.
  done.
Qed.

Lemma supportedRequired_snoc (supports : string → bool) (l : list string) a :
  supportedRequired supports (l ++ [a])
  = if supports a then {[a]} ∪ supportedRequired supports l
    else supportedRequired supports l.
Proof.
  unfold supportedRequired. rewrite List.filter_app. simpl.
  destruct (supports a).
  - rewrite list_to_set_app_L. simpl.
    rewrite (union_empty_r_L {[a]}). apply (comm_L (∪)).
  - by rewrite app_nil_r.
Qed.

Lemma unsupported_snoc (l : list string) a :
  unsupported (l ++ [a])
  = if negb (graphqlsec_SupportsAddress a || grpcsec_SupportsAddress a
             || httpsec_SupportsAddress a)
    then unsupported l ++ [a] else unsupported l.
Proof.
  unfold unsupported. rewrite List.filter_app. simpl.
  destruct (negb _); [done|]. by rewrite app_nil_r.
Qed.

(** The loop of [newWAFEventListeners] computes the three intersections and
    the list of unsupported addresses. *)
Lemma checkAddresses_spec (required : list string) :
  checkAddresses required
  = {| graphQLAddresses := supportedRequired graphqlsec_SupportsAddress required;
       grpcAddresses := supportedRequired grpcsec_SupportsAddress required;
       httpAddresses := supportedRequired httpsec_SupportsAddress required;
       notSupported := unsupported required |}.
Proof.
  unfold checkAddresses.
  induction required as [|a l IH] using rev_ind; [done|].
  rewrite foldl_app. simpl. rewrite IH. clear IH.
  rewrite !supportedRequired_snoc, unsupported_snoc.
  unfold checkAddress; simpl.
  destruct (graphqlsec_SupportsAddress a), (grpcsec_SupportsAddress a),
    (httpsec_SupportsAddress a); reflexivity.
Qed.

Lemma size_pos_nonempty (s : gset string) :
  bool_decide (0 < size s)%nat = if decide (s = ∅) then false else true.
Proof.
  destruct (decide (s = ∅)) as [->|Hne].
  - by rewrite size_empty.
  - apply bool_decide_eq_true.
    assert (size s ≠ 0%nat) as Hsz; [|lia].
    intros Hz. apply Hne. apply leibniz_equiv. by apply size_empty_inv.
Qed.

Lemma length_pos_nonnil {A} `{EqDecision A} (l : list A) :
  bool_decide (0 < length l)%nat = if decide (l = []) then false else true.
Proof.
  destruct l as [|x l]; [done|].
  rewrite (decide_False (P := x :: l = [])) by done.
  apply bool_decide_eq_true_2. cbn [length]. lia.
Qed.

Lemma newWAFEventListeners_empty (waf : wafHandle) (cfg : Config) (l : Limiter)
    (w : World) :
  Addresses (Handle waf) = [] →
  newWAFEventListeners waf cfg l w
  = (([], Some (errors_New "no addresses found in the rule")), w).
Proof. intros He. unfold newWAFEventListeners. by rewrite He. Qed.

Lemma newWAFEventListeners_run (waf : wafHandle) (cfg : Config) (l : Limiter)
    (w : World) :
  Addresses (Handle waf) ≠ [] →
  newWAFEventListeners waf cfg l w
  = ((expectedListeners waf cfg l (Addresses (Handle waf)), None),
     addLogs w (factoryLogs (Addresses (Handle waf)))).
Proof.
  intros Hne. unfold newWAFEventListeners.
  rewrite bool_decide_eq_false_2
    by (intros Hlen; apply Hne; by apply nil_length_inv).
  rewrite checkAddresses_spec. cbn [graphQLAddresses grpcAddresses httpAddresses notSupported].
  rewrite length_pos_nonnil, !size_pos_nonempty.
  unfold expectedListeners, factoryLogs.
  generalize (supportedRequired graphqlsec_SupportsAddress (Addresses (Handle waf))).
  generalize (supportedRequired grpcsec_SupportsAddress (Addresses (Handle waf))).
  generalize (supportedRequired httpsec_SupportsAddress (Addresses (Handle waf))).
  generalize (unsupported (Addresses (Handle waf))).
  intros u ht gr gq. destruct w as [r c lg].
  destruct (decide (u = [])), (decide (gq = ∅)), (decide (gr = ∅)), (decide (ht = ∅));
    unfold bind, log_Debug, ret, addLogs; simpl;
    rewrite <- ?app_assoc; simpl; rewrite ?app_nil_r; reflexivity.
Qed.
End FactoryFacts.

(** ** Swapping the handle *)

Section SwapFacts.
Context `{Engine} `{Protocols}.

(** A compile error is returned as it is, and nothing else happens. *)
Lemma swapWAF_compile_error (a : appsec) (rules : RulesFragment) (w : World) e :
  compileError rules (cfg a) = Some e →
  swapWAF a rules w = ((a, Some e), addLogs w (unknownTypeLogs (Actions rules))).
Proof.
  intros He. unfold swapWAF, bind at 1. rewrite newWAFHandle_run, He. reflexivity.
Qed.

(** A handle without addresses is closed again, and nothing is installed. *)
Lemma swapWAF_no_addresses (a : appsec) (rules : RulesFragment) (w : World) :
  compileError rules (cfg a) = None →
  Addresses (Handle (builtHandle rules (cfg a))) = [] →
  swapWAF a rules w
  = ((a, Some (errors_New "no addresses found in the rule")),
     addClosed (addLogs w (unknownTypeLogs (Actions rules)))
       [Handle (builtHandle rules (cfg a))]).
Proof.
  intros Hc Ha. unfold swapWAF, bind at 1. rewrite newWAFHandle_run, Hc.
  unfold defer, bind. by rewrite newWAFEventListeners_empty.
Qed.

(** Otherwise the swap goes through. *)
Lemma swapWAF_success (a : appsec) (rules : RulesFragment) (w : World) :
  compileError rules (cfg a) = None →
  Addresses (Handle (builtHandle rules (cfg a))) ≠ [] →
  swapWAF a rules w
  = (({| cfg := cfg a; limiter := limiter a;
         wafHandle_ := Some (builtHandle rules (cfg a)) |}, None),
     addClosed
       (setRoot
          (addLogs w (unknownTypeLogs (Actions rules)
                      ++ factoryLogs (Addresses (Handle (builtHandle rules (cfg a))))))
          (foldl On NewRootOperation
             (expectedListeners (builtHandle rules (cfg a)) (cfg a) (limiter a)
                (Addresses (Handle (builtHandle rules (cfg a)))))))
       (if wafHandle_ a is Some old then [Handle old] else [])).
Proof.
  intros Hc Ha. unfold swapWAF, bind at 1. rewrite newWAFHandle_run, Hc.
  unfold defer, bind at 1. unfold bind at 1.
  rewrite newWAFEventListeners_run by done.
  rewrite addLogs_app.
  destruct (wafHandle_ a) as [old|]; unfold bind, SwapRootOperation, Close, ret,
    addClosed, setRoot; simpl; rewrite ?app_nil_r; reflexivity.
Qed.

Lemma foldl_On (ls : list EventListener) (op : Operation) :
  listeners (foldl On op ls) = listeners op ++ ls.
Proof.
  revert op. induction ls as [|l ls IH]; intros op; simpl.
  - by rewrite app_nil_r.
  - rewrite IH. simpl. by rewrite <- app_assoc.
Qed.

(** The root a successful swap installs has all the listeners of the new
    handle registered, in the order they were built: they are registered on
    the new root before it is swapped in. *)
Lemma swapWAF_installs_complete_root (a : appsec) (rules : RulesFragment) (w : World) :
  snd (eval (swapWAF a rules) w) = None →
  listeners (rootOperation (exec (swapWAF a rules) w))
  = expectedListeners (builtHandle rules (cfg a)) (cfg a) (limiter a)
      (Addresses (Handle (builtHandle rules (cfg a)))).
Proof.
  unfold eval, exec.
  destruct (compileError rules (cfg a)) as [ce|] eqn:Hc.
  { by rewrite (swapWAF_compile_error a rules w ce Hc). }
  destruct (decide (Addresses (Handle (builtHandle rules (cfg a))) = [])) as [Ha|Ha].
  { by rewrite swapWAF_no_addresses. }
  rewrite swapWAF_success by done. intros _. cbn [snd rootOperation addClosed setRoot].
  by rewrite foldl_On.
Qed.
End SwapFacts.

(** ** The action registry of a handle *)

Section RegistryClaims.
Context `{Engine}.

(** C9: a [block_request] entry without [grpc_status_code] yields a block
    action with gRPC code 10 (Aborted); and the built-in default [block]
    action, the one the registry holds when no entry has the id [block],
    carries HTTP status 403, gRPC code 10 and the response-content type
    [auto]. *)
Theorem block_request_grpc_code_defaults_to_aborted
    (e : ActionEntry) (rules : RulesFragment) (cfg : Config) (w : World) :
  (Type_ e = "block_request" → GRPCStatusCode (Parameters e) = None →
   eval (actionFromEntry e) w
   = Some (NewBlockRequestAction (StatusCode (Parameters e)) 10
             (Parameters_Type (Parameters e))))
  ∧ ((∀ e', e' ∈ Actions rules → ID e' ≠ "block") →
     ∃ a, actions (fst (eval (newWAFHandle rules cfg) w)) !! "block" = Some a
          ∧ is_block a = true ∧ http_status a = 403
          ∧ grpc_code a = Some 10 ∧ content_type a = Some "auto").
Proof.
  split.
  - intros Ht Hg. unfold eval. rewrite actionFromEntry_run. simpl.
    unfold declaredAction. rewrite decide_True by done. by rewrite Hg.
  - intros Hno. exists defaultBlock. unfold eval. rewrite newWAFHandle_run.
    cbn [fst actions builtHandle]. rewrite registered_lookup, overriding_none.
    + by rewrite lookup_singleton_eq.
    + intros e' He' Hid. by destruct (Hno e' He').
Qed.

(** C4 (amended): the registry of a handle always has a [block] entry.  It
    is the built-in block action with HTTP status 403 unless the action list
    has an entry with id [block] whose type is a known one; then the action
    of the last such entry is stored instead.  An entry with id [block] of
    unknown type overrides nothing. *)
Theorem newWAFHandle_block_entry
    (rules : RulesFragment) (cfg : Config) (w : World) :
  let acts := actions (fst (eval (newWAFHandle rules cfg) w)) in
  is_Some (acts !! "block")
  ∧ ((∀ e, e ∈ Actions rules → ID e = "block" → eval (actionFromEntry e) w = None) →
     acts !! "block" = Some (NewBlockRequestAction 403 10 "auto"))
  ∧ (∀ pre e post a,
       Actions rules = pre ++ e :: post →
       ID e = "block" →
       eval (actionFromEntry e) w = Some a →
       (∀ e', e' ∈ post → ID e' = "block" → eval (actionFromEntry e') w = None) →
       acts !! "block" = Some a).
Proof.
  intros acts. subst acts. unfold eval.
  rewrite newWAFHandle_run. cbn [fst actions builtHandle].
  rewrite registered_lookup, lookup_singleton_eq.
  split; [|split].
  - by destruct (overriding "block" (Actions rules)).
  - intros Hnone. rewrite overriding_none; [done|].
    intros e He Hid. specialize (Hnone e He Hid).
    by rewrite actionFromEntry_run in Hnone.
  - intros pre e post a -> Hid Ha Hpost.
    rewrite actionFromEntry_run in Ha. simpl in Ha.
    rewrite (overriding_last "block" pre post e a Hid Ha); [done|].
    intros e' He' Hid'. specialize (Hpost e' He' Hid').
    by rewrite actionFromEntry_run in Hpost.
Qed.

(** C6 (amended): an entry whose type is neither [block_request] nor
    [redirect_request] is logged and dropped: [actionFromEntry] yields no
    action and one debug record; the registry is the one the other entries
    give, so the entry's id is absent from it unless another entry or the
    built-in default [block] entry sets it; the error of the construction is
    the engine's; and the swap goes through when the engine accepts the
    rules and the handle has addresses. *)
Theorem unknown_action_type_dropped `{Protocols}
    (a : appsec) (rules : RulesFragment) (pre post : list ActionEntry)
    (e : ActionEntry) (w : World) :
  Actions rules = pre ++ e :: post →
  Type_ e ≠ "block_request" → Type_ e ≠ "redirect_request" →
  let unknown := Debug "appsec: unknown action type `%s`" [ArgString (Type_ e)] in
  let built := eval (newWAFHandle rules (cfg a)) w in
  let acts := actions (fst built) in
  actionFromEntry e w = (None, addLogs w [unknown])
  ∧ unknown ∈ logs (exec (newWAFHandle rules (cfg a)) w)
  ∧ acts = actions (fst (eval (newWAFHandle
                                 {| Rules := Rules rules; Actions := pre ++ post |}
                                 (cfg a)) w))
  ∧ (ID e ≠ "block" →
     (∀ e', e' ∈ pre ++ post → ID e' = ID e → eval (actionFromEntry e') w = None) →
     acts !! ID e = None)
  ∧ snd built
    = snd (waf_NewHandle rules (KeyRegex (Obfuscator (cfg a)))
             (ValueRegex (Obfuscator (cfg a))))
  ∧ (snd built = None → Addresses (Handle (fst built)) ≠ [] →
     eval (swapWAF a rules) w
     = ({| cfg := cfg a; limiter := limiter a; wafHandle_ := Some (fst built) |}, None)).
Proof.
  intros Hrules Hb Hr unknown built acts.
  pose proof (declaredAction_unknown e Hb Hr) as He.
  assert (unknownTypeLogs [e] = [unknown]) as Hlog.
  { unfold unknownTypeLogs. simpl. by rewrite He. }
  subst acts built. unfold eval, exec.
  rewrite !newWAFHandle_run, actionFromEntry_run, He, Hlog.
  cbn [fst snd actions builtHandle logs addLogs Actions].
  split; [done|]. split.
  { rewrite Hrules. change (e :: post) with ([e] ++ post).
    rewrite !unknownTypeLogs_app, Hlog.
    apply elem_of_app. right. apply elem_of_app. right.
    apply elem_of_app. left. left. }
  split.
  { rewrite Hrules, !registered_app.
    change (registered (e :: post)) with (registered ([e] ++ post)).
    rewrite registered_app. f_equal. unfold registered at 1. simpl. by rewrite He. }
  split.
  { intros Hid Hothers. rewrite registered_lookup, Hrules.
    rewrite overriding_drop by done. rewrite overriding_none.
    - by rewrite lookup_singleton_ne.
    - intros e' He' Hid'. specialize (Hothers e' He' Hid').
      by rewrite actionFromEntry_run in Hothers. }
  split; [done|].
  intros Hc Ha. by rewrite swapWAF_success.
Qed.
End RegistryClaims.

(** ** Listener construction and the swap *)

Section SwapClaims.
Context `{Engine} `{Protocols}.

(** C1 (amended): listener construction fails exactly when the required
    address set of the handle is empty, and then with the error "no
    addresses found in the rule".  In that case [swapWAF] returns that
    error, closes the new handle, and leaves the manager (its current handle
    included) and the root operation as they were. *)
Theorem no_addresses_fails_and_keeps_current
    (a : appsec) (rules : RulesFragment) (w : World) :
  let newHandle := fst (eval (newWAFHandle rules (cfg a)) w) in
  (∀ waf cfg l w',
     snd (eval (newWAFEventListeners waf cfg l) w')
     = if decide (Addresses (Handle waf) = [])
       then Some (errors_New "no addresses found in the rule")
       else None)
  ∧ (snd (eval (newWAFHandle rules (cfg a)) w) = None →
     Addresses (Handle newHandle) = [] →
     eval (swapWAF a rules) w = (a, Some (errors_New "no addresses found in the rule"))
     ∧ rootOperation (exec (swapWAF a rules) w) = rootOperation w
     ∧ closed (exec (swapWAF a rules) w) = closed w ++ [Handle newHandle]).
Proof.
  intros newHandle. subst newHandle. unfold eval, exec. split.
  - intros waf cfg l w'.
    destruct (decide (Addresses (Handle waf) = [])) as [He|Hne].
    + by rewrite newWAFEventListeners_empty.
    + by rewrite newWAFEventListeners_run.
  - rewrite newWAFHandle_run. cbn [fst snd]. intros Hc Ha.
    by rewrite swapWAF_no_addresses.
Qed.

(** C3: a [swapWAF] that returns an error installs nothing.  A compile
    error is returned as the engine gave it, with no handle closed; any
    other error is the one of the listener construction, and then the new
    handle, and only it, is closed.  In both cases the manager (its current
    handle included) and the root operation are left as they were. *)
Theorem swapWAF_error_installs_nothing
    (a : appsec) (rules : RulesFragment) (w : World) :
  let built := eval (newWAFHandle rules (cfg a)) w in
  (∀ ce, snd built = Some ce → eval (swapWAF a rules) w = (a, Some ce))
  ∧ (∀ e, snd (eval (swapWAF a rules) w) = Some e →
       fst (eval (swapWAF a rules) w) = a
       ∧ rootOperation (exec (swapWAF a rules) w) = rootOperation w
       ∧ ((snd built = Some e
           ∧ closed (exec (swapWAF a rules) w) = closed w)
          ∨ (snd built = None
             ∧ snd (eval (newWAFEventListeners (fst built) (cfg a) (limiter a))
                      (exec (newWAFHandle rules (cfg a)) w)) = Some e
             ∧ closed (exec (swapWAF a rules) w)
               = closed w ++ [Handle (fst built)]))).
Proof.
  intros built. subst built. unfold eval, exec.
  rewrite newWAFHandle_run. cbn [fst snd]. split.
  { intros ce Hc. by rewrite (swapWAF_compile_error a rules w ce Hc). }
  intros e.
  destruct (compileError rules (cfg a)) as [ce|] eqn:Hc.
  - rewrite (swapWAF_compile_error a rules w ce Hc). cbn [fst snd].
    intros [= <-]. split; [done|]. split; [done|]. by left.
  - destruct (decide (Addresses (Handle (builtHandle rules (cfg a))) = []))
      as [Ha|Ha].
    + rewrite swapWAF_no_addresses by done.
      rewrite newWAFEventListeners_empty by done. cbn [fst snd].
      intros [= <-]. split; [done|]. split; [done|]. by right.
    + rewrite swapWAF_success by done. cbn [fst snd]. done.
Qed.

(** C5: for a handle with addresses, the factory returns no error and
    exactly the listeners of [expectedListeners]: in the order GraphQL, gRPC,
    HTTP, one listener for each protocol whose supported addresses meet the
    required ones, bound to that intersection, the handle, its action
    registry, the configured timeout and the limiter (and, for HTTP, the API
    security settings); none for a protocol whose intersection is empty. *)
Theorem newWAFEventListeners_one_per_protocol
    (waf : wafHandle) (cfg : Config) (l : Limiter) (w : World) :
  let required := Addresses (Handle waf) in
  let graphQL := supportedRequired graphqlsec_SupportsAddress required in
  let grpc := supportedRequired grpcsec_SupportsAddress required in
  let http := supportedRequired httpsec_SupportsAddress required in
  required ≠ [] →
  eval (newWAFEventListeners waf cfg l) w
  = ((if decide (graphQL = ∅) then []
      else [graphqlsec_NewWAFEventListener (Handle waf) (actions waf) graphQL
              (WAFTimeout cfg) l])
     ++ (if decide (grpc = ∅) then []
         else [grpcsec_NewWAFEventListener (Handle waf) (actions waf) grpc
                 (WAFTimeout cfg) l])
     ++ (if decide (http = ∅) then []
         else [httpsec_NewWAFEventListener (Handle waf) (actions waf) http
                 (WAFTimeout cfg) (APISec cfg) l]),
     None)
  ∧ (∀ x, x ∈ graphQL ↔ x ∈ required ∧ graphqlsec_SupportsAddress x = true)
  ∧ (∀ x, x ∈ grpc ↔ x ∈ required ∧ grpcsec_SupportsAddress x = true)
  ∧ (∀ x, x ∈ http ↔ x ∈ required ∧ httpsec_SupportsAddress x = true).
Proof.
  intros required graphQL grpc http Hne.
  split; [|split; [|split]]; try (intros x; apply elem_of_supportedRequired).
  unfold eval. by rewrite newWAFEventListeners_run.
Qed.

(** C10: the loop over the required addresses does not partition them.  An
    address goes into the set of every protocol that supports it, and each
    such protocol gets a listener bound to a set that holds the address; it
    is put on the not-supported list exactly when no protocol supports it,
    and that list is what the debug record reports. *)
Theorem addresses_shared_between_protocols
    (waf : wafHandle) (cfg : Config) (l : Limiter) (w : World) (address : string) :
  let required := Addresses (Handle waf) in
  let sets := checkAddresses required in
  let ls := fst (eval (newWAFEventListeners waf cfg l) w) in
  address ∈ required →
  (graphqlsec_SupportsAddress address = true →
   address ∈ graphQLAddresses sets
   ∧ graphqlsec_NewWAFEventListener (Handle waf) (actions waf)
       (graphQLAddresses sets) (WAFTimeout cfg) l ∈ ls)
  ∧ (grpcsec_SupportsAddress address = true →
     address ∈ grpcAddresses sets
     ∧ grpcsec_NewWAFEventListener (Handle waf) (actions waf)
         (grpcAddresses sets) (WAFTimeout cfg) l ∈ ls)
  ∧ (httpsec_SupportsAddress address = true →
     address ∈ httpAddresses sets
     ∧ httpsec_NewWAFEventListener (Handle waf) (actions waf)
         (httpAddresses sets) (WAFTimeout cfg) (APISec cfg) l ∈ ls)
  ∧ (address ∈ notSupported sets
     ↔ graphqlsec_SupportsAddress address = false
       ∧ grpcsec_SupportsAddress address = false
       ∧ httpsec_SupportsAddress address = false)
  ∧ (∃ rest,
       logs (exec (newWAFEventListeners waf cfg l) w)
       = logs w
         ++ (if decide (notSupported sets = []) then []
             else [Debug
                     "appsec: the addresses present in the rules are partially supported: not supported=%v"
                     [ArgStrings (notSupported sets)]])
         ++ rest).
Proof.
  intros required sets ls Hin.
  assert (required ≠ []) as Hne by (intros Heq; rewrite Heq in Hin; inversion Hin).
  subst ls sets. unfold eval, exec.
  rewrite newWAFEventListeners_run by done.
  rewrite checkAddresses_spec. cbn [fst snd graphQLAddresses grpcAddresses
    httpAddresses notSupported logs addLogs].
  fold required. unfold expectedListeners.
  assert (∀ f, f address = true → address ∈ supportedRequired f required
               ∧ supportedRequired f required ≠ ∅) as Hsup.
  { intros f Hf.
    assert (address ∈ supportedRequired f required) as Hx
      by by apply elem_of_supportedRequired.
    split; [done|]. intros Hempty. rewrite Hempty in Hx.
    by apply not_elem_of_empty in Hx. }
  split; [|split; [|split; [|split]]].
  - intros Hs. destruct (Hsup _ Hs) as [Hx Hn]. split; [done|].
    rewrite decide_False by done. left.
  - intros Hs. destruct (Hsup _ Hs) as [Hx Hn]. split; [done|].
    rewrite (decide_False (P := supportedRequired grpcsec_SupportsAddress _ = ∅))
      by done.
    apply elem_of_app. right. left.
  - intros Hs. destruct (Hsup _ Hs) as [Hx Hn]. split; [done|].
    rewrite (decide_False (P := supportedRequired httpsec_SupportsAddress _ = ∅))
      by done.
    apply elem_of_app. right. apply elem_of_app. right. left.
  - unfold unsupported. rewrite list_elem_of_In, filter_In, <- list_elem_of_In.
    destruct (graphqlsec_SupportsAddress address), (grpcsec_SupportsAddress address),
      (httpsec_SupportsAddress address); simpl;
      (split; [intros [_ Hf]; try discriminate Hf; auto
              |intros (Hg & Hr & Hh); try discriminate; auto]).
  - unfold factoryLogs. eexists. reflexivity.
Qed.
End SwapClaims.

(** ** JSON text read back *)

Module json_facts.
Import json.
Local Open Scope string_scope.

Lemma append_nil_l (b : string) : "" ++ b = b.
Proof. reflexivity. Qed.

Lemma append_cons (x : ascii) (a b : string) : String x a ++ b = String x (a ++ b).
Proof. reflexivity. Qed.

Ltac unappend := rewrite ?append_cons, ?append_nil_l.

Lemma append_assoc (a b c : string) : (a ++ b) ++ c = a ++ (b ++ c).
Proof. induction a as [|x a IH]; unappend; [done|]. by rewrite IH. Qed.

Lemma length_append (a b : string) :
  String.length (a ++ b) = (String.length a + String.length b)%nat.
Proof. induction a as [|x a IH]; unappend; simpl; [done|]. by rewrite IH. Qed.

(** One escaped character reads back as the character. *)
Lemma readChars_escapeChar (c : ascii) (s : string) :
  readChars (escapeChar c ++ s) = cons1 c (readChars s).
Proof. destruct c as [[] [] [] [] [] [] [] []]; reflexivity. Qed.

Lemma readChars_escape (s rest : string) :
  readChars (escape s ++ String quote rest) = Some (s, rest).
Proof.
  induction s as [|c s IH]; [reflexivity|].
  cbn [escape]. rewrite append_assoc, readChars_escapeChar, IH. reflexivity.
Qed.

Lemma readString_writeString (s rest : string) :
  readString (writeString s ++ rest) = Some (s, rest).
Proof.
  unfold writeString. unappend. cbn [readString].
  rewrite Ascii.eqb_refl.
  by rewrite append_assoc, append_cons, append_nil_l, readChars_escape.
Qed.

Section Items.
Context {A : Type} (write : A → string) (read : string → option (A * string)).
Context (open close : ascii).
Hypothesis close_not_comma : Ascii.eqb close "," = false.
Hypothesis write_starts :
  ∀ x, ∃ t, write x = String quote t.
Hypothesis quote_not_close : Ascii.eqb quote close = false.

Lemma writeMore_cons (y : A) (ys : list A) :
  writeMore write (y :: ys) = "," ++ write y ++ writeMore write ys.
Proof. reflexivity. Qed.

Lemma readItems_write (x : A) (xs : list A) (rest : string) (fuel : nat) :
  (∀ y, y ∈ x :: xs → ∀ r, read (write y ++ r) = Some (y, r)) →
  (length xs < fuel)%nat →
  readItems read close fuel (write x ++ writeMore write xs ++ String close rest)
  = Some (x :: xs, rest).
Proof.
  revert x fuel. induction xs as [|y ys IH]; intros x fuel Hread Hfuel.
  - destruct fuel as [|fuel]; [simpl in Hfuel; lia|].
    cbn [readItems]. rewrite Hread by left.
    cbn [writeMore]. unappend.
    rewrite close_not_comma, Ascii.eqb_refl. reflexivity.
  - destruct fuel as [|fuel]; [simpl in Hfuel; lia|].
    cbn [readItems]. rewrite Hread by left.
    rewrite writeMore_cons. unappend. rewrite Ascii.eqb_refl.
    rewrite append_assoc, IH; [done| |simpl in Hfuel; lia].
    intros z Hz. apply Hread. by right.
Qed.

Lemma readList_write (l : list A) (rest : string) (fuel : nat) :
  (∀ y, y ∈ l → ∀ r, read (write y ++ r) = Some (y, r)) →
  (length l ≤ fuel)%nat →
  readList read open close fuel (String open (writeItems write l ++ String close rest))
  = Some (l, rest).
Proof.
  intros Hread Hfuel. unfold readList. rewrite Ascii.eqb_refl.
  destruct l as [|x xs].
  - cbn [writeItems]. unappend. by rewrite Ascii.eqb_refl.
  - cbn [writeItems]. 
    destruct (write_starts x) as [t Ht].
    rewrite append_assoc.
    assert (write x ++ writeMore write xs ++ String close rest
            = String quote (t ++ writeMore write xs ++ String close rest)) as Hs
      by by rewrite Ht.
    rewrite Hs. cbv beta iota. rewrite quote_not_close, <- Hs.
    apply readItems_write; [done|]. simpl in Hfuel. lia.
Qed.

Lemma length_writeItems (l : list A) :
  (length l ≤ String.length (writeItems write l))%nat.
Proof.
  destruct l as [|x xs]; [done|]. cbn [writeItems]. 
  rewrite length_append. destruct (write_starts x) as [t ->].
  cbn [String.length length].
  assert (length xs ≤ String.length (writeMore write xs))%nat; [|lia].
  induction xs as [|y ys IH]; [simpl; lia|].
  rewrite writeMore_cons. unappend. cbn [String.length length].
  rewrite length_append. lia.
Qed.

Lemma length_writeItems_elem (l : list A) (x : A) :
  x ∈ l → (String.length (write x) ≤ String.length (writeItems write l))%nat.
Proof.
  destruct l as [|x0 xs]; [by intros ?%elem_of_nil|].
  cbn [writeItems].  rewrite length_append.
  intros [->|Hin]%elem_of_cons; [lia|].
  assert (String.length (write x) ≤ String.length (writeMore write xs))%nat; [|lia].
  induction xs as [|y ys IH]; [by apply elem_of_nil in Hin|].
  rewrite writeMore_cons. unappend. cbn [String.length].
  rewrite length_append.
  apply elem_of_cons in Hin as [->|Hin]; [lia|]. specialize (IH Hin). lia.
Qed.
End Items.

Lemma readArray_writeArray (l : list string) (rest : string) (fuel : nat) :
  (length l ≤ fuel)%nat →
  readArray fuel (writeArray l ++ rest) = Some (l, rest).
Proof.
  intros Hfuel. unfold readArray, writeArray. unappend.
  rewrite append_assoc. unappend.
  apply readList_write; try done.
  - intros x. by eexists.
  - intros y _ r. apply readString_writeString.
Qed.

Lemma readMember_writeMember (m : string * list string) (rest : string) (fuel : nat) :
  (length (snd m) ≤ fuel)%nat →
  readMember fuel (writeMember m ++ rest) = Some (m, rest).
Proof.
  intros Hfuel. unfold readMember, writeMember.
  rewrite append_assoc, readString_writeString. unappend.
  rewrite Ascii.eqb_refl.
  rewrite readArray_writeArray by done. by destruct m.
Qed.

Lemma readObject_writeObject (l : list (string * list string)) (fuel : nat) :
  (length l ≤ fuel)%nat →
  (∀ m, m ∈ l → length (snd m) ≤ fuel)%nat →
  readObject fuel (writeObject l) = Some (l, "").
Proof.
  intros Hfuel Hmembers. unfold readObject, writeObject. unappend.
  apply readList_write; try done.
  - intros x. by eexists.
  - intros m Hm r. apply readMember_writeMember. by apply Hmembers.
Qed.

(** The length of the text is fuel enough to read it. *)
Lemma readObject_fuel (l : list (string * list string)) :
  readObject (String.length (writeObject l)) (writeObject l) = Some (l, "").
Proof.
  assert (∀ x : string * list string, ∃ t, writeMember x = String quote t) as Hst
    by (intros x; by eexists).
  assert (∀ x : string, ∃ t, writeString x = String quote t) as Hst'
    by (intros x; by eexists).
  apply readObject_writeObject.
  - unfold writeObject. unappend. cbn [String.length]. rewrite length_append.
    pose proof (length_writeItems writeMember Hst l). lia.
  - intros m Hm. unfold writeObject. unappend. cbn [String.length].
    rewrite length_append.
    pose proof (length_writeItems_elem writeMember l m Hm) as Hlen.
    unfold writeMember at 1 in Hlen. rewrite !length_append in Hlen.
    unfold writeArray in Hlen. rewrite !append_cons, !append_nil_l in Hlen.
    cbn [String.length] in Hlen. rewrite length_append in Hlen.
    pose proof (length_writeItems writeString Hst' (snd m)). lia.
Qed.
End json_facts.

(** What [json_Marshal] writes, [json_Unmarshal] reads back. *)
Lemma json_Unmarshal_Marshal (m : gmap string (list string)) :
  json_Unmarshal (json_Marshal m) = Some m.
Proof.
  unfold json_Unmarshal, json_Marshal. rewrite json_facts.readObject_fuel.
  by rewrite list_to_map_to_list.
Qed.

(** ** The monitoring tags of the rules diagnostics *)

(** C7: for diagnostics with N loaded and M failed rules, the tags hold N
    under [_dd.appsec.event_rules.loaded], M under
    [_dd.appsec.event_rules.error_count], and under
    [_dd.appsec.event_rules.errors] a string that reads back as the map of the
    diagnostics, so that every error message of a failed rule is a key of
    it. *)
Theorem rules_monitoring_tags_report_counts_and_errors
    (th : TagsHolder) (wafDiags : Diagnostics) (rInfo : DiagnosticEntry) (N M : nat) :
  Rules_ wafDiags = Some rInfo →
  length (Loaded rInfo) = N →
  length (Failed rInfo) = M →
  let tags := Tags (AddRulesMonitoringTags th wafDiags) in
  tags !! eventRulesLoadedTag = Some (TagInt (Z.of_nat N))
  ∧ tags !! eventRulesFailedTag = Some (TagInt (Z.of_nat M))
  ∧ ∃ s m, tags !! eventRulesErrorsTag = Some (TagString s)
           ∧ json_Unmarshal s = Some m
           ∧ m = Errors rInfo
           ∧ ∀ msg, msg ∈ dom (Errors rInfo) → msg ∈ dom m.
Proof.
  intros Hr <- <- tags. subst tags.
  unfold Tags, AddRulesMonitoringTags, AddTag. rewrite Hr.
  split; [|split].
  - rewrite lookup_insert_ne by done. rewrite lookup_insert_ne by done.
    by rewrite lookup_insert_eq.
  - rewrite lookup_insert_ne by done. by rewrite lookup_insert_eq.
  - exists (json_Marshal (Errors rInfo)), (Errors rInfo).
    split; [|split; [apply json_Unmarshal_Marshal|done]].
    rewrite !lookup_insert_ne by done. by rewrite lookup_insert_eq.
Qed.

(** ** The claims on the sample instance *)

Section SampleRuns.
Import Sample.

(** The handle the sample engine compiles from a list of addresses. *)
Local Abbreviation compiled addresses entries :=
  (fst (eval (newWAFHandle (rulesWith addresses entries) config) world)).

(** C9 on a [block_request] entry without gRPC code, and on rules whose
    only entry has another id. *)
Lemma block_request_grpc_code_defaults_to_aborted_witness :
  (Type_ block418 = "block_request" ∧ GRPCStatusCode (Parameters block418) = None)
  ∧ eval (actionFromEntry block418) world = Some (NewBlockRequestAction 418 10 "json")
  ∧ ∃ a, actions (compiled ["server.request.body"] [redirect301]) !! "block" = Some a
         ∧ is_block a = true ∧ http_status a = 403
         ∧ grpc_code a = Some 10 ∧ content_type a = Some "auto".
Proof.
  pose proof (block_request_grpc_code_defaults_to_aborted block418
                (rulesWith ["server.request.body"] [redirect301]) config world)
    as [Hentry Hdefault].
  split; [done|]. split.
  - by apply Hentry.
  - apply Hdefault. intros e' ->%list_elem_of_singleton. done.
Defined.

(** C4 as stated fails on an entry with id [block] of unknown type: the
    action list has an entry with id [block], yet the registry still holds
    the built-in 403 block action, and no entry's action is stored
    instead. *)
Lemma block_entry_of_unknown_type_keeps_default :
  let entries := [monitorBlock] in
  let acts := actions (compiled ["server.request.body"] entries) in
  (∃ e, e ∈ entries ∧ ID e = "block")
  ∧ acts !! "block" = Some (NewBlockRequestAction 403 10 "auto")
  ∧ ¬ (∃ e a, e ∈ entries ∧ ID e = "block"
              ∧ eval (actionFromEntry e) world = Some a ∧ acts !! "block" = Some a).
Proof.
  split; [|split].
  - exists monitorBlock. split; [by left|done].
  - vm_compute. reflexivity.
  - intros (e & a & ->%list_elem_of_singleton & _ & Ha & _). by vm_compute in Ha.
Qed.

(** C4 (amended) on a list whose last entry with id [block] is of unknown
    type: the entry before it is the one stored. *)
Lemma newWAFHandle_block_entry_witness :
  let entries := [redirect301; block418; monitorBlock] in
  actions (compiled ["server.request.body"] entries) !! "block"
  = Some (NewBlockRequestAction 418 10 "json").
Proof.
  pose proof (newWAFHandle_block_entry
                (rulesWith ["server.request.body"] [redirect301; block418; monitorBlock])
                config world) as (_ & _ & Hlast).
  apply (Hlast [redirect301] block418 [monitorBlock]); [done..|].
  intros e' ->%list_elem_of_singleton _. reflexivity.
Defined.

(** C6 as stated fails on an entry with id [block] of unknown type: it is
    the only entry of the action list, so no other entry sets its id, and
    yet the id is in the registry, under the built-in default. *)
Lemma unknown_type_block_id_still_registered :
  let entries := [monitorBlock] in
  let acts := actions (compiled ["server.request.body"] entries) in
  Type_ monitorBlock ≠ "block_request" ∧ Type_ monitorBlock ≠ "redirect_request"
  ∧ eval (actionFromEntry monitorBlock) world = None
  ∧ (∀ e, e ∈ entries → e = monitorBlock)
  ∧ acts !! ID monitorBlock = Some (NewBlockRequestAction 403 10 "auto")
  ∧ ¬ (acts !! ID monitorBlock = None).
Proof.
  split; [done|]. split; [done|]. split; [reflexivity|]. split.
  { by intros e ->%list_elem_of_singleton. }
  assert (actions (compiled ["server.request.body"] [monitorBlock]) !! ID monitorBlock
          = Some (NewBlockRequestAction 403 10 "auto")) as Hreg
    by (vm_compute; reflexivity).
  split; [exact Hreg|]. intros Hnone. by rewrite Hnone in Hreg.
Qed.

(** C6 (amended) on an entry of unknown type between two known ones. *)
Lemma unknown_action_type_dropped_witness :
  let rules := rulesWith ["server.request.body"] [block418; monitorOther; redirect301] in
  (Actions rules = [block418] ++ monitorOther :: [redirect301]
   ∧ Type_ monitorOther ≠ "block_request" ∧ Type_ monitorOther ≠ "redirect_request")
  ∧ eval (actionFromEntry monitorOther) world = None
  ∧ actions (fst (eval (newWAFHandle rules config) world))
    = actions (compiled ["server.request.body"] [block418; redirect301])
  ∧ actions (fst (eval (newWAFHandle rules config) world)) !! "audit" = None
  ∧ snd (eval (swapWAF fresh rules) world) = None.
Proof.
  pose proof (unknown_action_type_dropped fresh
                (rulesWith ["server.request.body"] [block418; monitorOther; redirect301])
                [block418] [redirect301] monitorOther world eq_refl)
    as Hdrop.
  assert (Type_ monitorOther ≠ "block_request") as Hb by done.
  assert (Type_ monitorOther ≠ "redirect_request") as Hr by done.
  destruct (Hdrop Hb Hr) as (Hrun & _ & Hsame & Habsent & _ & Hswap).
  split; [split; [reflexivity|split; assumption]|].
  split; [unfold eval; rewrite Hrun; reflexivity|].
  split; [exact Hsame|]. split.
  - apply Habsent; [discriminate|].
    intros e' [->| ->%list_elem_of_singleton]%elem_of_cons Hid; discriminate Hid.
  - rewrite Hswap; [reflexivity|vm_compute; reflexivity|vm_compute; discriminate].
Defined.

(** C1 (amended) on rules without addresses, with a handle in place. *)
Lemma no_addresses_fails_and_keeps_current_witness :
  let rules := rulesWith [] [block418] in
  (snd (eval (newWAFHandle rules (cfg running)) world) = None
   ∧ Addresses (Handle (fst (eval (newWAFHandle rules (cfg running)) world))) = [])
  ∧ eval (swapWAF running rules) world
    = (running, Some (errors_New "no addresses found in the rule"))
  ∧ rootOperation (exec (swapWAF running rules) world) = rootOperation world
  ∧ closed (exec (swapWAF running rules) world) = [(0%nat, [])].
Proof.
  assert (snd (eval (newWAFHandle (rulesWith [] [block418]) (cfg running)) world) = None)
    as Hc by (vm_compute; reflexivity).
  assert (Addresses (Handle (fst (eval (newWAFHandle (rulesWith [] [block418])
                                           (cfg running)) world))) = [])
    as Ha by (vm_compute; reflexivity).
  destruct (no_addresses_fails_and_keeps_current running (rulesWith [] [block418])
              world) as [_ Hswap].
  destruct (Hswap Hc Ha) as (Herr & Hroot & Hclosed).
  split; [by split|]. split; [exact Herr|]. split; [exact Hroot|].
  etrans; [exact Hclosed|]. vm_compute. reflexivity.
Defined.

(** C1 as stated fails on a handle whose only address no protocol supports:
    the construction returns no listener and no error, and [swapWAF]
    installs the new handle, swaps in a root without listeners and closes
    the handle that was current. *)
Lemma unsupported_addresses_do_not_fail :
  let rules := rulesWith ["unknown.address"] [] in
  let newHandle := compiled ["unknown.address"] [] in
  Addresses (Handle newHandle) = ["unknown.address"]
  ∧ (supportedRequired graphqlsec_SupportsAddress ["unknown.address"] = ∅
     ∧ supportedRequired grpcsec_SupportsAddress ["unknown.address"] = ∅
     ∧ supportedRequired httpsec_SupportsAddress ["unknown.address"] = ∅)
  ∧ eval (newWAFEventListeners newHandle config tt) world = ([], None)
  ∧ eval (swapWAF running rules) world
    = ({| cfg := config; limiter := tt; wafHandle_ := Some newHandle |}, None)
  ∧ wafHandle_ (fst (eval (swapWAF running rules) world)) ≠ wafHandle_ running
  ∧ listeners (rootOperation (exec (swapWAF running rules) world)) = []
  ∧ closed (exec (swapWAF running rules) world) = [Handle old].
Proof.
  assert (eval (swapWAF running (rulesWith ["unknown.address"] [])) world
          = ({| cfg := config; limiter := tt;
                wafHandle_ := Some (compiled ["unknown.address"] []) |}, None))
    as Hswap by (vm_compute; reflexivity).
  split; [reflexivity|]. split; [repeat split; vm_compute; reflexivity|].
  split; [vm_compute; reflexivity|]. split; [exact Hswap|]. split.
  - cbv zeta. rewrite Hswap. vm_compute. discriminate.
  - split; vm_compute; reflexivity.
Qed.

(** C3 on rules the sample engine refuses, with a handle in place. *)
Lemma swapWAF_error_installs_nothing_witness :
  let rules := rulesWith ["invalid"] [redirect301] in
  snd (eval (swapWAF running rules) world) = Some (errors_New "invalid rules")
  ∧ fst (eval (swapWAF running rules) world) = running
  ∧ rootOperation (exec (swapWAF running rules) world) = rootOperation world.
Proof.
  assert (snd (eval (swapWAF running (rulesWith ["invalid"] [redirect301])) world)
          = Some (errors_New "invalid rules")) as He by (vm_compute; reflexivity).
  destruct (swapWAF_error_installs_nothing running (rulesWith ["invalid"] [redirect301])
              world) as [_ Herr].
  destruct (Herr (errors_New "invalid rules") He) as (Ha & Hroot & _).
  split; [exact He|]. split; [exact Ha|exact Hroot].
Defined.

(** C5 on a handle with addresses of gRPC and HTTP and none of GraphQL. *)
Lemma newWAFEventListeners_one_per_protocol_witness :
  Addresses (Handle mixed) ≠ []
  ∧ eval (newWAFEventListeners mixed config tt) world
    = ([grpcsec_NewWAFEventListener (Handle mixed) (actions mixed)
          {["http.client_ip"]} 4000 tt;
        httpsec_NewWAFEventListener (Handle mixed) (actions mixed)
          {["http.client_ip"; "server.request.body"]} 4000 true tt],
       None).
Proof.
  assert (Addresses (Handle mixed) ≠ []) as Hne by discriminate.
  destruct (newWAFEventListeners_one_per_protocol mixed config tt world Hne)
    as [Heq _].
  split; [exact Hne|]. etrans; [exact Heq|]. vm_compute. reflexivity.
Defined.

(** C10 on an address that gRPC and HTTP both support. *)
Lemma addresses_shared_between_protocols_witness :
  "http.client_ip" ∈ Addresses (Handle mixed)
  ∧ (grpcsec_SupportsAddress "http.client_ip" = true
     ∧ httpsec_SupportsAddress "http.client_ip" = true)
  ∧ "http.client_ip" ∈ grpcAddresses (checkAddresses (Addresses (Handle mixed)))
  ∧ "http.client_ip" ∈ httpAddresses (checkAddresses (Addresses (Handle mixed)))
  ∧ "http.client_ip" ∉ notSupported (checkAddresses (Addresses (Handle mixed))).
Proof.
  assert ("http.client_ip" ∈ Addresses (Handle mixed)) as Hin by left.
  destruct (addresses_shared_between_protocols mixed config tt world
              "http.client_ip" Hin) as (_ & Hgrpc & Hhttp & Hnot & _).
  split; [exact Hin|]. split; [split; reflexivity|].
  split; [apply Hgrpc; reflexivity|]. split; [apply Hhttp; reflexivity|].
  intros Hx. apply Hnot in Hx as (_ & Hx & _). discriminate Hx.
Defined.

(** C7 on the diagnostics of the tags test: ten rules loaded, one failed. *)
Lemma rules_monitoring_tags_report_counts_and_errors_witness :
  let tags := Tags (AddRulesMonitoringTags NewTagsHolder testDiagnostics) in
  tags !! eventRulesLoadedTag = Some (TagInt 10)
  ∧ tags !! eventRulesFailedTag = Some (TagInt 1)
  ∧ ∃ s m, tags !! eventRulesErrorsTag = Some (TagString s)
           ∧ json_Unmarshal s = Some m
           ∧ m = {[ "test" := ["1"; "2"] ]}
           ∧ ∀ msg, msg ∈ dom ({[ "test" := ["1"; "2"] ]} : gmap string (list string))
                    → msg ∈ dom m.
Proof.
  exact (rules_monitoring_tags_report_counts_and_errors NewTagsHolder testDiagnostics
           {| Loaded := ["0"; "1"; "2"; "3"; "4"; "5"; "6"; "7"; "8"; "9"];
              Failed := ["1337"];
              Errors := {[ "test" := ["1"; "2"] ]} |} 10 1 eq_refl eq_refl eq_refl).
Defined.
End SampleRuns.

(** * Further properties of waf.go *)

Section RegistryMore.
Context `{Engine}.

Lemma knownType_declared (e : ActionEntry) :
  knownType e = true ↔ is_Some (declaredAction e).
Proof.
  unfold knownType, declaredAction.
  destruct (String.eqb_spec (Type_ e) "block_request") as [Hb|Hb].
  { rewrite decide_True by done. simpl. split; [by eexists|done]. }
  rewrite (decide_False (P := Type_ e = "block_request")) by done.
  destruct (String.eqb_spec (Type_ e) "redirect_request") as [Hr|Hr].
  { rewrite decide_True by done. simpl. split; [by eexists|done]. }
  rewrite decide_False by done. simpl. split; [done|]. by intros [? ?].
Qed.

Lemma eval_actionFromEntry (e : ActionEntry) (w : World) :
  eval (actionFromEntry e) w = declaredAction e.
Proof. unfold eval. by rewrite actionFromEntry_run. Qed.

Lemma eval_newWAFHandle (rules : RulesFragment) (cfg : Config) (w : World) :
  eval (newWAFHandle rules cfg) w = (builtHandle rules cfg, compileError rules cfg).
Proof. unfold eval. by rewrite newWAFHandle_run. Qed.

Lemma exec_newWAFHandle (rules : RulesFragment) (cfg : Config) (w : World) :
  exec (newWAFHandle rules cfg) w = addLogs w (unknownTypeLogs (Actions rules)).
Proof. unfold exec. by rewrite newWAFHandle_run. Qed.

(** X1: [actionFromEntry] yields an action exactly for the two known types,
    and then logs nothing and changes nothing; a [block_request] entry that
    gives a gRPC code gets that code. *)
Theorem actionFromEntry_drops_only_unknown_types (e : ActionEntry) (w : World) :
  (is_Some (eval (actionFromEntry e) w)
   ↔ Type_ e = "block_request" ∨ Type_ e = "redirect_request")
  ∧ (is_Some (eval (actionFromEntry e) w) → exec (actionFromEntry e) w = w)
  ∧ (∀ c, Type_ e = "block_request" → GRPCStatusCode (Parameters e) = Some c →
          eval (actionFromEntry e) w
          = Some (NewBlockRequestAction (StatusCode (Parameters e)) c
                    (Parameters_Type (Parameters e))))
  ∧ (Type_ e = "redirect_request" →
     eval (actionFromEntry e) w
     = Some (NewRedirectRequestAction (StatusCode (Parameters e))
               (Location (Parameters e)))).
Proof.
  unfold eval, exec. rewrite actionFromEntry_run. cbn [fst snd].
  split; [|split; [|split]].
  - rewrite <- knownType_declared. unfold knownType.
    rewrite orb_true_iff, !String.eqb_eq. done.
  - intros [a Ha]. unfold unknownTypeLogs. simpl. rewrite Ha. apply addLogs_nil.
  - intros c Hb Hc. unfold declaredAction. rewrite decide_True by done.
    by rewrite Hc.
  - intros Hr. unfold declaredAction.
    rewrite decide_False by (rewrite Hr; discriminate).
    by rewrite decide_True.
Qed.

(** X2: under any id the registry holds the action of the last entry with
    that id whose type is known; an id other than [block] with no such
    entry is absent. *)
Theorem registry_holds_last_known_entry
    (rules : RulesFragment) (cfg : Config) (w : World) (id : string) :
  let acts := actions (fst (eval (newWAFHandle rules cfg) w)) in
  (∀ pre e post a,
     Actions rules = pre ++ e :: post →
     ID e = id →
     eval (actionFromEntry e) w = Some a →
     (∀ e', e' ∈ post → ID e' = id → eval (actionFromEntry e') w = None) →
     acts !! id = Some a)
  ∧ (id ≠ "block" →
     (∀ e, e ∈ Actions rules → ID e = id → eval (actionFromEntry e) w = None) →
     acts !! id = None).
Proof.
  intros acts. subst acts. rewrite eval_newWAFHandle.
  cbn [fst actions builtHandle]. rewrite registered_lookup. split.
  - intros pre e post a -> Hid Ha Hpost. rewrite eval_actionFromEntry in Ha.
    rewrite (overriding_last id pre post e a Hid Ha); [done|].
    intros e' He' Hid'. rewrite <- (eval_actionFromEntry e' w). by apply Hpost.
  - intros Hne Hnone. rewrite overriding_none.
    + by rewrite lookup_singleton_ne.
    + intros e He Hid. rewrite <- (eval_actionFromEntry e w). by apply Hnone.
Qed.

Lemma overriding_is_Some (id : string) (entries : list ActionEntry) :
  is_Some (overriding id entries)
  ↔ ∃ e, e ∈ entries ∧ ID e = id ∧ is_Some (declaredAction e).
Proof.
  induction entries as [|e rest IH]; simpl.
  - split; [by intros [? ?]|]. intros (e & He & _). by apply elem_of_nil in He.
  - destruct (overriding id rest) as [a|] eqn:Ho.
    + split; [|by eexists]. intros _.
      destruct (proj1 IH) as (e' & He' & Hid & Hs); [by eexists|].
      exists e'. split; [by right|done].
    + destruct (decide (ID e = id)) as [Hid|Hid].
      * split.
        -- intros Hs. exists e. split; [left|done].
        -- intros (e' & [->|He']%elem_of_cons & Hid' & Hs); [done|].
           destruct (proj2 IH) as [? ?]; [by exists e'|done].
      * split; [by intros [? ?]|].
        intros (e' & [->|He']%elem_of_cons & Hid' & Hs); [done|].
        destruct (proj2 IH) as [? ?]; [by exists e'|done].
Qed.

Lemma registered_size (entries : list ActionEntry) (acts : sharedsec_Actions) :
  (size (registered entries acts) ≤ size acts + length entries)%nat.
Proof.
  revert acts. induction entries as [|e rest IH]; intros acts; simpl; [lia|].
  change (registered (e :: rest) acts)
    with (registered rest
            (if declaredAction e is Some a then <[ID e := a]> acts else acts)).
  etrans; [apply IH|]. destruct (declaredAction e) as [a|]; [|lia].
  destruct (acts !! ID e) as [x|] eqn:Hx.
  - rewrite map_size_insert_Some; [lia|by eexists].
  - rewrite map_size_insert_None by done. lia.
Qed.

(** X3: the ids of the registry are [block] and the ids of the entries of
    known type, and nothing else; so it has at most one entry more than the
    action list. *)
Theorem registry_ids
    (rules : RulesFragment) (cfg : Config) (w : World) :
  let acts := actions (fst (eval (newWAFHandle rules cfg) w)) in
  (∀ id, id ∈ dom acts
         ↔ id = "block"
           ∨ ∃ e, e ∈ Actions rules ∧ ID e = id
                  ∧ is_Some (eval (actionFromEntry e) w))
  ∧ (size acts ≤ 1 + length (Actions rules))%nat.
Proof.
  intros acts. subst acts. rewrite eval_newWAFHandle.
  cbn [fst actions builtHandle]. split.
  - intros id. rewrite elem_of_dom, registered_lookup.
    destruct (overriding id (Actions rules)) as [a|] eqn:Ho.
    + split; [|by eexists]. intros _. right.
      destruct (proj1 (overriding_is_Some id (Actions rules)))
        as (e & He & Hid & Hs); [by eexists|].
      exists e. by rewrite eval_actionFromEntry.
    + destruct (decide (id = "block")) as [->|Hne].
      * rewrite lookup_singleton_eq. split; [by left|by eexists].
      * rewrite lookup_singleton_ne by done. split; [by intros [? ?]|].
        intros [?|(e & He & Hid & Hs)]; [done|].
        rewrite eval_actionFromEntry in Hs.
        destruct (proj2 (overriding_is_Some id (Actions rules))) as [? ?];
          [by exists e|congruence].
  - etrans; [apply registered_size|]. by rewrite map_size_singleton.
Qed.

(** X4: [newWAFHandle] hands on the engine's handle and error as they are
    and builds the registry even when the engine fails; it closes no handle
    and leaves the root operation alone; and it logs one record for each
    entry of unknown type, in the order of the action list. *)
Theorem newWAFHandle_effects
    (rules : RulesFragment) (cfg : Config) (w : World) :
  let compiled :=
    waf_NewHandle rules (KeyRegex (Obfuscator cfg)) (ValueRegex (Obfuscator cfg)) in
  Handle (fst (eval (newWAFHandle rules cfg) w)) = fst compiled
  ∧ snd (eval (newWAFHandle rules cfg) w) = snd compiled
  ∧ is_Some (actions (fst (eval (newWAFHandle rules cfg) w)) !! "block")
  ∧ rootOperation (exec (newWAFHandle rules cfg) w) = rootOperation w
  ∧ closed (exec (newWAFHandle rules cfg) w) = closed w
  ∧ logs (exec (newWAFHandle rules cfg) w)
    = logs w ++ ((λ e, Debug "appsec: unknown action type `%s`" [ArgString (Type_ e)])
                 <$> filter (λ e, knownType e = false) (Actions rules)).
Proof.
  intros compiled. subst compiled. rewrite eval_newWAFHandle, exec_newWAFHandle.
  cbn [fst snd Handle actions builtHandle compileError rootOperation closed logs
       addLogs].
  split; [done|]. split; [done|]. split.
  { rewrite registered_lookup, lookup_singleton_eq.
    by destruct (overriding "block" (Actions rules)). }
  split; [done|]. split; [done|]. f_equal.
  induction (Actions rules) as [|e rest IH]; [done|].
  change (e :: rest) with ([e] ++ rest) at 1. rewrite unknownTypeLogs_app, IH.
  rewrite filter_cons. unfold unknownTypeLogs at 1. simpl.
  pose proof (knownType_declared e) as Hk.
  destruct (declaredAction e) as [a|].
  - rewrite decide_False; [done|].
    rewrite (proj2 Hk) by by eexists. discriminate.
  - rewrite decide_True; [done|].
    destruct (knownType e); [|done]. by destruct (proj1 Hk eq_refl).
Qed.
End RegistryMore.

Section FactoryMore.
Context `{Engine} `{Protocols}.

Lemma eval_newWAFEventListeners (waf : wafHandle) (cfg : Config) (l : Limiter)
    (w : World) :
  Addresses (Handle waf) ≠ [] →
  eval (newWAFEventListeners waf cfg l) w
  = (expectedListeners waf cfg l (Addresses (Handle waf)), None).
Proof. intros Hne. unfold eval. by rewrite newWAFEventListeners_run. Qed.

Lemma supportedRequired_ext (supports : string → bool) (l1 l2 : list string) :
  (∀ x, x ∈ l1 ↔ x ∈ l2) →
  supportedRequired supports l1 = supportedRequired supports l2.
Proof.
  intros Hl. apply set_eq. intros x. rewrite !elem_of_supportedRequired.
  by rewrite Hl.
Qed.

Lemma supportedRequired_empty (supports : string → bool) (l : list string) :
  supportedRequired supports l = ∅ ↔ ∀ x, x ∈ l → supports x = false.
Proof.
  split.
  - intros Hempty x Hx. destruct (supports x) eqn:Hs; [|done].
    assert (x ∈ supportedRequired supports l) as Hin
      by by apply elem_of_supportedRequired.
    rewrite Hempty in Hin. by apply not_elem_of_empty in Hin.
  - intros Hall. apply set_eq. intros x. rewrite elem_of_supportedRequired.
    split.
    + intros [Hx Hs]. rewrite (Hall x Hx) in Hs. discriminate.
    + by intros ?%not_elem_of_empty.
Qed.

(** X5: what the listeners are bound to depends on the set of required
    addresses only, not on their order or on repetitions: two handles whose
    address lists have the same members get the same address sets per
    protocol, and listeners bound to the same sets. *)
Theorem listeners_depend_on_the_address_set_only
    (waf1 waf2 : wafHandle) (cfg : Config) (l : Limiter) (w : World) :
  Addresses (Handle waf1) ≠ [] →
  (∀ x, x ∈ Addresses (Handle waf1) ↔ x ∈ Addresses (Handle waf2)) →
  graphQLAddresses (checkAddresses (Addresses (Handle waf1)))
  = graphQLAddresses (checkAddresses (Addresses (Handle waf2)))
  ∧ grpcAddresses (checkAddresses (Addresses (Handle waf1)))
    = grpcAddresses (checkAddresses (Addresses (Handle waf2)))
  ∧ httpAddresses (checkAddresses (Addresses (Handle waf1)))
    = httpAddresses (checkAddresses (Addresses (Handle waf2)))
  ∧ listenerAddresses <$> fst (eval (newWAFEventListeners waf1 cfg l) w)
    = listenerAddresses <$> fst (eval (newWAFEventListeners waf2 cfg l) w).
Proof.
  intros Hne Hsame.
  assert (Addresses (Handle waf2) ≠ []) as Hne2.
  { destruct (Addresses (Handle waf1)) as [|x xs] eqn:E1; [done|].
    intros E2. rewrite E2 in Hsame.
    apply (not_elem_of_nil x), Hsame. left. }
  rewrite !checkAddresses_spec. cbn [graphQLAddresses grpcAddresses httpAddresses].
  rewrite !eval_newWAFEventListeners by done. cbn [fst].
  unfold expectedListeners.
  rewrite (supportedRequired_ext graphqlsec_SupportsAddress _ _ Hsame).
  rewrite (supportedRequired_ext grpcsec_SupportsAddress _ _ Hsame).
  rewrite (supportedRequired_ext httpsec_SupportsAddress _ _ Hsame).
  split; [done|]. split; [done|]. split; [done|].
  destruct (decide (supportedRequired graphqlsec_SupportsAddress _ = ∅)),
    (decide (supportedRequired grpcsec_SupportsAddress _ = ∅)),
    (decide (supportedRequired httpsec_SupportsAddress _ = ∅)); reflexivity.
Qed.

(** X6: for a handle with addresses the factory builds at most three
    listeners, and none at all exactly when no protocol supports any of the
    required addresses; it still returns no error then. *)
Theorem no_listener_iff_nothing_supported
    (waf : wafHandle) (cfg : Config) (l : Limiter) (w : World) :
  Addresses (Handle waf) ≠ [] →
  (fst (eval (newWAFEventListeners waf cfg l) w) = []
   ↔ ∀ x, x ∈ Addresses (Handle waf) →
          graphqlsec_SupportsAddress x = false
          ∧ grpcsec_SupportsAddress x = false
          ∧ httpsec_SupportsAddress x = false)
  ∧ (length (fst (eval (newWAFEventListeners waf cfg l) w)) ≤ 3)%nat
  ∧ snd (eval (newWAFEventListeners waf cfg l) w) = None.
Proof.
  intros Hne. rewrite eval_newWAFEventListeners by done. cbn [fst snd].
  unfold expectedListeners.
  pose proof (supportedRequired_empty graphqlsec_SupportsAddress
                (Addresses (Handle waf))) as Hg.
  pose proof (supportedRequired_empty grpcsec_SupportsAddress
                (Addresses (Handle waf))) as Hr.
  pose proof (supportedRequired_empty httpsec_SupportsAddress
                (Addresses (Handle waf))) as Hh.
  destruct (decide (supportedRequired graphqlsec_SupportsAddress _ = ∅)) as [Eg|Eg],
    (decide (supportedRequired grpcsec_SupportsAddress _ = ∅)) as [Er|Er],
    (decide (supportedRequired httpsec_SupportsAddress _ = ∅)) as [Eh|Eh];
    (split; [|split; [simpl; lia|done]]); simpl.
  1: { split; [|done]. intros _ x Hx.
       split; [by apply Hg|split; [by apply Hr|by apply Hh]]. }
  all: split; [done|]; intros Hall.
  1: exfalso; apply Eh, Hh; intros x Hx; by apply Hall.
  1,2: exfalso; apply Er, Hr; intros x Hx; by apply Hall.
  all: exfalso; apply Eg, Hg; intros x Hx; by apply Hall.
Qed.
End FactoryMore.

Section SwapMore.
Context `{Engine} `{Protocols}.

Lemma expectedListeners_bound (waf : wafHandle) (cfg : Config) (l : Limiter)
    (required : list string) (x : EventListener) :
  x ∈ expectedListeners waf cfg l required →
  listenerHandle x = Handle waf ∧ listenerActions x = actions waf.
Proof.
  unfold expectedListeners.
  destruct (decide (supportedRequired graphqlsec_SupportsAddress _ = ∅)),
    (decide (supportedRequired grpcsec_SupportsAddress _ = ∅)),
    (decide (supportedRequired httpsec_SupportsAddress _ = ∅)); simpl;
    intros Hx;
    repeat (apply elem_of_cons in Hx as [->|Hx]; [done|]);
    by apply elem_of_nil in Hx.
Qed.

(** X7: [swapWAF] succeeds exactly when the engine accepts the rules and the
    compiled handle has at least one address. *)
Theorem swapWAF_succeeds_iff (a : appsec) (rules : RulesFragment) (w : World) :
  let compiled :=
    waf_NewHandle rules (KeyRegex (Obfuscator (cfg a)))
      (ValueRegex (Obfuscator (cfg a))) in
  snd (eval (swapWAF a rules) w) = None
  ↔ snd compiled = None ∧ Addresses (fst compiled) ≠ [].
Proof.
  intros compiled. subst compiled. unfold eval.
  change (snd (waf_NewHandle rules (KeyRegex (Obfuscator (cfg a)))
                 (ValueRegex (Obfuscator (cfg a)))))
    with (compileError rules (cfg a)).
  change (fst (waf_NewHandle rules (KeyRegex (Obfuscator (cfg a)))
                 (ValueRegex (Obfuscator (cfg a)))))
    with (Handle (builtHandle rules (cfg a))).
  destruct (compileError rules (cfg a)) as [ce|] eqn:Hc.
  { rewrite (swapWAF_compile_error a rules w ce Hc). cbn [fst snd].
    split; [done|]. by intros [? _]. }
  destruct (decide (Addresses (Handle (builtHandle rules (cfg a))) = []))
    as [Ha|Ha].
  - rewrite swapWAF_no_addresses by done. cbn [fst snd].
    split; [done|]. by intros [_ ?].
  - rewrite swapWAF_success by done. done.
Qed.

(** X8: after a successful swap the new handle is the current one, the
    configuration and the limiter are the same, the root operation holds
    exactly the listeners built for the new handle, each bound to the new
    handle and its registry, and [Close] was called on the handle that was
    current, if there was one, and on no other. *)
Theorem swapWAF_success_state (a : appsec) (rules : RulesFragment) (w : World) :
  let newHandle := fst (eval (newWAFHandle rules (cfg a)) w) in
  let a' := fst (eval (swapWAF a rules) w) in
  let w' := exec (swapWAF a rules) w in
  snd (eval (swapWAF a rules) w) = None →
  wafHandle_ a' = Some newHandle
  ∧ cfg a' = cfg a ∧ limiter a' = limiter a
  ∧ listeners (rootOperation w')
    = fst (eval (newWAFEventListeners newHandle (cfg a) (limiter a)) w)
  ∧ (∀ l, l ∈ listeners (rootOperation w') →
          listenerHandle l = Handle newHandle
          ∧ listenerActions l = actions newHandle)
  ∧ closed w'
    = closed w ++ match wafHandle_ a with Some old => [Handle old] | None => [] end.
Proof.
  intros newHandle a' w'. subst newHandle a' w'. unfold eval, exec.
  rewrite newWAFHandle_run. cbn [fst].
  destruct (compileError rules (cfg a)) as [ce|] eqn:Hc.
  { by rewrite (swapWAF_compile_error a rules w ce Hc). }
  destruct (decide (Addresses (Handle (builtHandle rules (cfg a))) = []))
    as [Ha|Ha].
  { by rewrite swapWAF_no_addresses. }
  rewrite swapWAF_success by done. intros _.
  rewrite newWAFEventListeners_run by done.
  cbn [fst snd wafHandle_ cfg limiter rootOperation closed addClosed setRoot].
  rewrite foldl_On. cbn [listeners NewRootOperation app].
  split; [done|]. split; [done|]. split; [done|]. split; [done|].
  split; [|done]. intros l. apply expectedListeners_bound.
Qed.

(** X9: a swap never leaves a closed handle current.  If the current handle
    has not been closed and the engine hands out a handle that is neither
    closed nor the current one, then after [swapWAF], whether it fails or
    not, the current handle has not been closed. *)
Theorem swapWAF_keeps_the_current_handle_open
    (a : appsec) (rules : RulesFragment) (w : World) :
  let newHandle := fst (eval (newWAFHandle rules (cfg a)) w) in
  (∀ old, wafHandle_ a = Some old →
          (Handle old ∉ closed w) ∧ Handle old ≠ Handle newHandle) →
  Handle newHandle ∉ closed w →
  ∀ current, wafHandle_ (fst (eval (swapWAF a rules) w)) = Some current →
             Handle current ∉ closed (exec (swapWAF a rules) w).
Proof.
  intros newHandle. subst newHandle. unfold eval, exec.
  rewrite newWAFHandle_run. cbn [fst]. intros Hold Hnew current.
  destruct (compileError rules (cfg a)) as [ce|] eqn:Hc.
  { rewrite (swapWAF_compile_error a rules w ce Hc). cbn [fst snd closed addLogs].
    intros Hcur. by apply Hold. }
  destruct (decide (Addresses (Handle (builtHandle rules (cfg a))) = []))
    as [Ha|Ha].
  - rewrite swapWAF_no_addresses by done.
    cbn [fst snd closed addClosed addLogs]. intros Hcur.
    destruct (Hold current Hcur) as [Hopen Hne].
    rewrite elem_of_app, list_elem_of_singleton. by intros [?|?].
  - rewrite swapWAF_success by done.
    cbn [fst snd wafHandle_ closed addClosed setRoot addLogs].
    intros [= <-]. rewrite elem_of_app. intros [?|Hin]; [done|].
    destruct (wafHandle_ a) as [old|]; [|by apply elem_of_nil in Hin].
    apply list_elem_of_singleton in Hin. destruct (Hold old eq_refl) as [_ Hne].
    by apply Hne.
Qed.

(** X10: swaps compose.  After a successful swap to [rules1], a second swap
    that succeeds makes the handle of [rules2] current and calls [Close] on
    the handle of [rules1] and on nothing else; a second swap that fails
    keeps the handle of [rules1] current and its listeners in the root. *)
Theorem second_swap_replaces_or_keeps_the_first
    (a : appsec) (rules1 rules2 : RulesFragment) (w : World) :
  let first := fst (eval (newWAFHandle rules1 (cfg a)) w) in
  let a1 := fst (eval (swapWAF a rules1) w) in
  let w1 := exec (swapWAF a rules1) w in
  let a2 := fst (eval (swapWAF a1 rules2) w1) in
  let w2 := exec (swapWAF a1 rules2) w1 in
  snd (eval (swapWAF a rules1) w) = None →
  (snd (eval (swapWAF a1 rules2) w1) = None →
   wafHandle_ a2 = Some (fst (eval (newWAFHandle rules2 (cfg a)) w1))
   ∧ closed w2 = closed w1 ++ [Handle first])
  ∧ (snd (eval (swapWAF a1 rules2) w1) ≠ None →
     wafHandle_ a2 = Some first
     ∧ rootOperation w2 = rootOperation w1
     ∧ listeners (rootOperation w2)
       = fst (eval (newWAFEventListeners first (cfg a) (limiter a)) w)).
Proof.
  intros first a1 w1 a2 w2 Hok1.
  assert (a1 = {| cfg := cfg a; limiter := limiter a; wafHandle_ := Some first |}
          ∧ listeners (rootOperation w1)
            = fst (eval (newWAFEventListeners first (cfg a) (limiter a)) w))
    as [Ha1 Hroot1].
  { subst a1 w1 first. revert Hok1. unfold eval, exec.
    rewrite newWAFHandle_run. cbn [fst].
    destruct (compileError rules1 (cfg a)) as [ce|] eqn:Hc.
    { by rewrite (swapWAF_compile_error a rules1 w ce Hc). }
    destruct (decide (Addresses (Handle (builtHandle rules1 (cfg a))) = []))
      as [Ha|Ha].
    { by rewrite swapWAF_no_addresses. }
    rewrite swapWAF_success by done. intros _.
    rewrite newWAFEventListeners_run by done.
    cbn [fst snd rootOperation addClosed setRoot]. by rewrite foldl_On. }
  subst a2 w2. revert Hroot1. generalize w1. clear w1.
  rewrite Ha1. clear Ha1 a1. intros w1 Hroot1. unfold eval, exec in *.
  rewrite newWAFHandle_run. cbn [fst].
  set (a1 := {| cfg := cfg a; limiter := limiter a; wafHandle_ := Some first |}).
  destruct (compileError rules2 (cfg a1)) as [ce|] eqn:Hc.
  { rewrite (swapWAF_compile_error a1 rules2 w1 ce Hc).
    cbn [fst snd wafHandle_ rootOperation addLogs]. split; [done|].
    intros _. done. }
  destruct (decide (Addresses (Handle (builtHandle rules2 (cfg a1))) = []))
    as [Ha|Ha].
  - rewrite (swapWAF_no_addresses a1 rules2 w1 Hc Ha).
    cbn [fst snd wafHandle_ rootOperation addLogs addClosed]. split; [done|].
    intros _. done.
  - rewrite (swapWAF_success a1 rules2 w1 Hc Ha).
    cbn [fst snd wafHandle_ cfg limiter closed addClosed setRoot addLogs].
    split; [done|]. intros Hne. by destruct Hne.
Qed.
End SwapMore.

(** * The mock span and the gRPC tags *)

Section MockSpanFacts.
Context `{TagConstants}.
Import testlib.

Lemma Tag_SetTag_eq (m : MockSpan) (key : string) (value : any) :
  key ≠ ext_ManualKeep → Tag (SetTag m key value) key = Some value.
Proof.
  intros Hne. unfold SetTag, Tag. rewrite decide_False by done. simpl.
  apply lookup_insert_eq.
Qed.

Lemma Tag_SetTag_ne (m : MockSpan) (key k : string) (value : any) :
  k ≠ key → Tag (SetTag m key value) k = Tag m k.
Proof.
  intros Hne. unfold SetTag, Tag.
  destruct (decide (key = ext_ManualKeep)) as [->|Hk].
  - destruct (decide (value = _)); simpl.
    + rewrite lookup_insert_ne by done. by destruct (Tags m).
    + by destruct (Tags m).
  - simpl. rewrite lookup_insert_ne by done. by destruct (Tags m).
Qed.

(** X11: a tag set under a key other than [ext.ManualKeep] is read back as
    it was set, the other tags and the finished flag stay as they were, and
    the tag map is no longer nil. *)
Theorem MockSpan_SetTag_then_read (m : MockSpan) (key : string) (value : any) :
  key ≠ ext_ManualKeep →
  Tag (SetTag m key value) key = Some value
  ∧ (∀ k, k ≠ key → Tag (SetTag m key value) k = Tag m k)
  ∧ Finished (SetTag m key value) = Finished m
  ∧ Tags (SetTag m key value) ≠ None.
Proof.
  intros Hne. split; [by apply Tag_SetTag_eq|].
  split; [intros k Hk; by apply Tag_SetTag_ne|].
  unfold SetTag. rewrite decide_False by done. done.
Qed.

Lemma Tag_SetTag_ManualKeep (m : MockSpan) (value : any) :
  Tag (SetTag m ext_ManualKeep value) ext_ManualKeep
  = if decide (value = anySamplerName samplernames_AppSec)
    then Some (anyBool true) else Tag m ext_ManualKeep.
Proof.
  unfold SetTag, Tag. rewrite decide_True by done.
  destruct (decide (value = _)); simpl.
  - apply lookup_insert_eq.
  - by destruct (Tags m).
Qed.

(** X12: the [ext.ManualKeep] tag is never stored as given.  On a span
    without it, after any run of [SetTag] calls the tag is [true] when one
    of the calls set [ext.ManualKeep] to [samplernames.AppSec], and absent
    otherwise. *)
Theorem MockSpan_ManualKeep_only_for_AppSec
    (m : MockSpan) (calls : list (string * any)) :
  Tag m ext_ManualKeep = None →
  Tag (SetTags m calls) ext_ManualKeep
  = if decide ((ext_ManualKeep, anySamplerName samplernames_AppSec) ∈ calls)
    then Some (anyBool true) else None.
Proof.
  intros Hm. induction calls as [|[k v] calls IH] using rev_ind.
  - unfold SetTags. cbn [foldl]. rewrite Hm.
    rewrite decide_False; [done|]. apply not_elem_of_nil.
  - unfold SetTags in *. rewrite foldl_app. cbn [foldl fst snd].
    destruct (decide (k = ext_ManualKeep)) as [->|Hk].
    + rewrite Tag_SetTag_ManualKeep, IH.
      destruct (decide (v = anySamplerName samplernames_AppSec)) as [->|Hv].
      * rewrite decide_True; [done|]. apply elem_of_app. right. left.
      * destruct (decide (_ ∈ calls)) as [Hin|Hnin].
        -- rewrite decide_True; [done|]. apply elem_of_app. by left.
        -- rewrite decide_False; [done|].
           intros [?|Hl%list_elem_of_singleton]%elem_of_app; [done|congruence].
    + rewrite Tag_SetTag_ne by done. rewrite IH.
      destruct (decide (_ ∈ calls)) as [Hin|Hnin].
      * rewrite decide_True; [done|]. apply elem_of_app. by left.
      * rewrite decide_False; [done|].
        intros [?|Hl%list_elem_of_singleton]%elem_of_app; [done|congruence].
Qed.
End MockSpanFacts.

Section MetadataTags.
Context `{TagConstants} `{Httptrace}.
Import testlib grpctrace.

Lemma metadata_key_inj (h1 h2 : string) :
  "grpc.metadata." +:+ h1 = "grpc.metadata." +:+ h2 → h1 = h2.
Proof. apply String.app_inj. Qed.

(** The loop of [SetRequestMetadataTags] over the entries [order]. *)
Local Abbreviation tagAll m order :=
  (foldl (λ span hv,
            span_SetTag span ("grpc.metadata." +:+ fst hv) (anyString (snd hv)))
     m order).

Lemma tagAll_other (m : MockSpan) (order : list (string * string)) (k : string) :
  (∀ h v, (h, v) ∈ order → k ≠ "grpc.metadata." +:+ h) →
  Tag (tagAll m order) k = Tag m k.
Proof.
  induction order as [|[h v] order IH] using rev_ind; intros Hk; [done|].
  rewrite foldl_app. cbn [foldl fst snd span_SetTag MockSpan_Span].
  rewrite Tag_SetTag_ne.
  - apply IH. intros h' v' Hin. apply (Hk h' v'), elem_of_app. by left.
  - apply (Hk h v), elem_of_app. right. left.
Qed.

Lemma tagAll_set (m : MockSpan) (order : list (string * string)) (h v : string) :
  (∀ h', "grpc.metadata." +:+ h' ≠ ext_ManualKeep) →
  NoDup (fst <$> order) →
  (h, v) ∈ order →
  Tag (tagAll m order) ("grpc.metadata." +:+ h) = Some (anyString v).
Proof.
  intros Hkeep.
  induction order as [|[h' v'] order IH] using rev_ind; intros Hnd Hin.
  { by apply elem_of_nil in Hin. }
  rewrite foldl_app. cbn [foldl fst snd span_SetTag MockSpan_Span].
  rewrite fmap_app in Hnd. apply NoDup_app in Hnd as (Hnd & Hfresh & _).
  apply elem_of_app in Hin as [Hin|Hin%list_elem_of_singleton].
  - rewrite Tag_SetTag_ne; [by apply IH|].
    intros Heq%metadata_key_inj. subst h'.
    apply (Hfresh h); [|left].
    apply list_elem_of_fmap. by exists (h, v).
  - injection Hin as -> ->. by apply Tag_SetTag_eq.
Qed.

Lemma tagAll_Finished (m : MockSpan) (order : list (string * string)) :
  Finished (tagAll m order) = Finished m.
Proof.
  induction order as [|[h v] order IH] using rev_ind; [done|].
  rewrite foldl_app. cbn [foldl fst snd span_SetTag MockSpan_Span].
  rewrite <- IH. unfold SetTag.
  destruct (decide (_ = ext_ManualKeep)); [destruct (decide (_ = _))|]; done.
Qed.

(** X13: whatever order the range over the normalized headers takes, on a
    mock span [SetRequestMetadataTags] leaves every header [h] with value
    [v] under the tag [grpc.metadata.h] as the string [v], and changes no
    other tag nor the finished flag (no key of that form being
    [ext.ManualKeep]). *)
Theorem SetRequestMetadataTags_sets_one_tag_per_header
    (range : gmap string string → list (string * string))
    (m : MockSpan) (md : gmap string (list string)) :
  rangeOrder range (NormalizeHTTPHeaders md) →
  (∀ h, "grpc.metadata." +:+ h ≠ ext_ManualKeep) →
  let m' := SetRequestMetadataTags range m md in
  (∀ h v, NormalizeHTTPHeaders md !! h = Some v →
          Tag m' ("grpc.metadata." +:+ h) = Some (anyString v))
  ∧ (∀ k, (∀ h, is_Some (NormalizeHTTPHeaders md !! h) → k ≠ "grpc.metadata." +:+ h) →
          Tag m' k = Tag m k)
  ∧ Finished m' = Finished m.
Proof.
  intros Horder Hkeep m'. subst m'. unfold rangeOrder in Horder.
  unfold SetRequestMetadataTags.
  assert (∀ h v, (h, v) ∈ range (NormalizeHTTPHeaders md)
                 ↔ NormalizeHTTPHeaders md !! h = Some v) as Hin.
  { intros h v. rewrite Horder. apply elem_of_map_to_list. }
  assert (NoDup (fst <$> range (NormalizeHTTPHeaders md))) as Hnd.
  { rewrite Horder. apply NoDup_fst_map_to_list. }
  split; [|split].
  - intros h v Hv. apply tagAll_set; [done..|]. by apply Hin.
  - intros k Hk. apply tagAll_other.
    intros h v Hv. apply Hk. exists v. by apply Hin.
  - apply tagAll_Finished.
Qed.
End MetadataTags.

(** * Router options *)

Section RouterFacts.
Context `{RouterEnv}.
Import httprouter.

Lemma validRate_one : validRate PrimFloat.one.
Proof. right. split; reflexivity. Qed.

Lemma validRate_nan : validRate PrimFloat.nan.
Proof. left. reflexivity. Qed.

Lemma exported_validRate (fn : RouterOption) (cfg : routerConfig) :
  exported fn → validRate (analyticsRate cfg) → validRate (analyticsRate (fn cfg)).
Proof.
  intros [name|opts|on|rate|headers] Hcfg; simpl; try done.
  - destruct on; [apply validRate_one|apply validRate_nan].
  - destruct (PrimFloat.leb PrimFloat.zero rate) eqn:H0; simpl;
      [|apply validRate_nan].
    destruct (PrimFloat.leb rate PrimFloat.one) eqn:H1; [|apply validRate_nan].
    by right.
Qed.

Lemma configured_validRate (opts : list RouterOption) (cfg : routerConfig) :
  Forall exported opts → validRate (analyticsRate cfg) →
  validRate (analyticsRate (foldl (λ cfg fn, fn cfg) cfg opts)).
Proof.
  intros Hopts. revert cfg. induction Hopts as [|fn opts Hfn _ IH]; intros cfg Hcfg.
  - done.
  - simpl. apply IH. by apply exported_validRate.
Qed.

(** X14: whatever options of the package a router is built with, in any
    number and order, its analytics rate is NaN or lies between 0 and 1,
    provided the global default rate does; and [WithAnalyticsRate] keeps a
    rate exactly when it lies between 0 and 1, and stores NaN for any
    other, NaN and the infinities included. *)
Theorem New_analytics_rate_stays_valid (opts : list RouterOption) :
  Forall exported opts →
  validRate globalconfig_AnalyticsRate →
  validRate (analyticsRate (config (fst (New opts))))
  ∧ (∀ rate cfg,
       analyticsRate (WithAnalyticsRate rate cfg)
       = if PrimFloat.leb PrimFloat.zero rate && PrimFloat.leb rate PrimFloat.one
         then rate else PrimFloat.nan).
Proof.
  intros Hopts Hglobal. split; [|done].
  unfold New. cbn [fst config].
  set (cfg := foldl (λ cfg fn, fn cfg) (defaults zeroConfig) opts).
  assert (validRate (analyticsRate cfg)) as Hcfg.
  { apply configured_validRate; [done|]. unfold defaults. cbn [analyticsRate].
    destruct (internal_BoolEnv _ _); [apply validRate_one|done]. }
  by destruct (negb (PrimFloat.is_nan (analyticsRate cfg))).
Qed.

(** X15: the span options of a new router are those of the last
    [WithSpanOptions], which replaces the ones set before it, followed by
    the analytics tag when the rate is not NaN, and always by the span-kind
    tag and the component tag, in this order. *)
Theorem New_span_options (opts : list RouterOption) (given : list StartSpanOption)
    (later : list RouterOption) :
  Forall (λ fn, ∀ cfg, spanOpts (fn cfg) = spanOpts cfg) later →
  let cfg := config (fst (New (opts ++ WithSpanOptions given :: later))) in
  spanOpts cfg
  = given
    ++ (if PrimFloat.is_nan (analyticsRate cfg) then []
        else [tracer_Tag_float ext_EventSampleRate (analyticsRate cfg)])
    ++ [tracer_Tag_string ext_SpanKind ext_SpanKindServer;
        tracer_Tag_string ext_Component componentName].
Proof.
  intros Hlater cfg. subst cfg. unfold New. cbn [fst config].
  rewrite foldl_app. cbn [foldl].
  set (before := foldl (λ cfg fn, fn cfg) (defaults zeroConfig) opts).
  assert (∀ c, spanOpts (foldl (λ cfg fn, fn cfg) c later) = spanOpts c) as Hkeep.
  { induction Hlater as [|fn later Hfn _ IH]; intros c; [done|].
    simpl. by rewrite IH, Hfn. }
  set (final := foldl (λ cfg fn, fn cfg) (WithSpanOptions given before) later).
  assert (spanOpts final = given) as Hfinal.
  { subst final. by rewrite Hkeep. }
  destruct (PrimFloat.is_nan (analyticsRate final)) eqn:Hnan; simpl.
  - rewrite Hnan, Hfinal. by rewrite <- !app_assoc.
  - rewrite Hnan, Hfinal. by rewrite <- !app_assoc.
Qed.
End RouterFacts.

(** * The further properties on the sample instances *)

Section SampleRunsMore.
Import Sample SampleMore.

(** X1 on a block entry with a gRPC code of its own. *)
Lemma actionFromEntry_drops_only_unknown_types_witness :
  is_Some (eval (actionFromEntry block401) world)
  ∧ exec (actionFromEntry block401) world = world
  ∧ eval (actionFromEntry block401) world
    = Some (NewBlockRequestAction 401 7 "html").
Proof.
  destruct (actionFromEntry_drops_only_unknown_types block401 world)
    as (Hknown & Hquiet & Hcode & _).
  assert (is_Some (eval (actionFromEntry block401) world)) as Hs.
  { apply Hknown. by left. }
  split; [exact Hs|]. split; [by apply Hquiet|]. by apply Hcode.
Defined.

(** X2 on the id of a redirect entry, and on an id no entry has. *)
Lemma registry_holds_last_known_entry_witness :
  actions (fst (eval (newWAFHandle bodyRules config) world)) !! "redirect-1"
  = Some (NewRedirectRequestAction 301 "/blocked")
  ∧ actions (fst (eval (newWAFHandle bodyRules config) world)) !! "audit" = None.
Proof.
  split.
  - destruct (registry_holds_last_known_entry bodyRules config world "redirect-1")
      as [Hlast _].
    apply (Hlast [] redirect301 [block401]); [reflexivity..|].
    intros e' ->%list_elem_of_singleton Hid. discriminate Hid.
  - destruct (registry_holds_last_known_entry bodyRules config world "audit")
      as [_ Habsent].
    apply Habsent; [discriminate|].
    intros e [->| ->%list_elem_of_singleton]%elem_of_cons Hid; discriminate Hid.
Defined.

(** X5 on two handles with the same addresses in different orders. *)
Lemma listeners_depend_on_the_address_set_only_witness :
  listenerAddresses <$> fst (eval (newWAFEventListeners mixed config tt) world)
  = listenerAddresses <$> fst (eval (newWAFEventListeners shuffled config tt) world).
Proof.
  assert (Addresses (Handle mixed) ≠ []) as Hne by discriminate.
  assert (∀ x, x ∈ Addresses (Handle mixed) ↔ x ∈ Addresses (Handle shuffled))
    as Hsame.
  { intros x. cbn. rewrite !elem_of_cons, !elem_of_nil. tauto. }
  exact (proj2 (proj2 (proj2
           (listeners_depend_on_the_address_set_only mixed shuffled config tt world
              Hne Hsame)))).
Defined.

(** X6 on a handle with supported addresses. *)
Lemma no_listener_iff_nothing_supported_witness :
  Addresses (Handle mixed) ≠ []
  ∧ (length (fst (eval (newWAFEventListeners mixed config tt) world)) ≤ 3)%nat
  ∧ snd (eval (newWAFEventListeners mixed config tt) world) = None.
Proof.
  assert (Addresses (Handle mixed) ≠ []) as Hne by discriminate.
  split; [exact Hne|].
  exact (proj2 (no_listener_iff_nothing_supported mixed config tt world Hne)).
Defined.

(** X8 on a swap that replaces a handle. *)
Lemma swapWAF_success_state_witness :
  snd (eval (swapWAF running bodyRules) world) = None
  ∧ wafHandle_ (fst (eval (swapWAF running bodyRules) world))
    = Some (fst (eval (newWAFHandle bodyRules (cfg running)) world))
  ∧ closed (exec (swapWAF running bodyRules) world) = [Handle old].
Proof.
  assert (snd (eval (swapWAF running bodyRules) world) = None) as Hok
    by (vm_compute; reflexivity).
  destruct (swapWAF_success_state running bodyRules world Hok)
    as (Hcur & _ & _ & _ & _ & Hclosed).
  split; [exact Hok|]. split; [exact Hcur|exact Hclosed].
Defined.

(** X9 on a swap that replaces a handle never closed. *)
Lemma swapWAF_keeps_the_current_handle_open_witness :
  ∃ current,
    wafHandle_ (fst (eval (swapWAF running bodyRules) world)) = Some current
    ∧ Handle current ∉ closed (exec (swapWAF running bodyRules) world).
Proof.
  exists (fst (eval (newWAFHandle bodyRules (cfg running)) world)).
  assert (wafHandle_ (fst (eval (swapWAF running bodyRules) world))
          = Some (fst (eval (newWAFHandle bodyRules (cfg running)) world))) as Hcur
    by (vm_compute; reflexivity).
  split; [exact Hcur|].
  apply (swapWAF_keeps_the_current_handle_open running bodyRules world);
    [| |exact Hcur].
  - intros o [= <-]. split; [apply not_elem_of_nil|]. vm_compute. discriminate.
  - apply not_elem_of_nil.
Defined.

(** X10 on two swaps in a row, the second accepted. *)
Lemma second_swap_replaces_or_keeps_the_first_witness :
  let a1 := fst (eval (swapWAF fresh bodyRules) world) in
  let w1 := exec (swapWAF fresh bodyRules) world in
  snd (eval (swapWAF fresh bodyRules) world) = None
  ∧ snd (eval (swapWAF a1 ipRules) w1) = None
  ∧ closed (exec (swapWAF a1 ipRules) w1)
    = closed w1 ++ [Handle (fst (eval (newWAFHandle bodyRules (cfg fresh)) world))].
Proof.
  assert (snd (eval (swapWAF fresh bodyRules) world) = None) as Hok1
    by (vm_compute; reflexivity).
  assert (snd (eval (swapWAF (fst (eval (swapWAF fresh bodyRules) world)) ipRules)
                 (exec (swapWAF fresh bodyRules) world)) = None) as Hok2
    by (vm_compute; reflexivity).
  destruct (second_swap_replaces_or_keeps_the_first fresh bodyRules ipRules world
              Hok1) as [Hsecond _].
  split; [exact Hok1|]. split; [exact Hok2|]. exact (proj2 (Hsecond Hok2)).
Defined.
End SampleRunsMore.

Section SampleSpans.
Import testlib grpctrace SampleSpan.

(** X11 on a fresh span. *)
Lemma MockSpan_SetTag_then_read_witness :
  "http.status_code" ≠ ext_ManualKeep
  ∧ Tag (SetTag fresh "http.status_code" (anyInt 403)) "http.status_code"
    = Some (anyInt 403).
Proof.
  assert ("http.status_code" ≠ ext_ManualKeep) as Hne by discriminate.
  split; [exact Hne|].
  exact (proj1 (MockSpan_SetTag_then_read fresh "http.status_code" (anyInt 403) Hne)).
Defined.

(** X12 on a run that sets [ext.ManualKeep] twice, once to the AppSec
    sampler name. *)
Lemma MockSpan_ManualKeep_only_for_AppSec_witness :
  Tag fresh ext_ManualKeep = None
  ∧ Tag (SetTags fresh [(ext_ManualKeep, anySamplerName samplernames_AppSec);
                        (ext_ManualKeep, anyString "no")]) ext_ManualKeep
    = Some (anyBool true).
Proof.
  split; [reflexivity|].
  etrans; [apply (MockSpan_ManualKeep_only_for_AppSec fresh); reflexivity|].
  vm_compute. reflexivity.
Defined.

Lemma metadata_key_not_ManualKeep (h : string) :
  "grpc.metadata." +:+ h ≠ ext_ManualKeep.
Proof. intros Heq. inversion Heq. Qed.

(** X13 on the metadata of a request, ranged over in the order of the
    map's list of entries. *)
Lemma SetRequestMetadataTags_sets_one_tag_per_header_witness :
  rangeOrder map_to_list (NormalizeHTTPHeaders metadata)
  ∧ Tag (SetRequestMetadataTags map_to_list fresh metadata)
      ("grpc.metadata." +:+ "x-client-ip")
    = Some (anyString "1.2.3.4").
Proof.
  assert (rangeOrder map_to_list (NormalizeHTTPHeaders metadata)) as Horder
    by (unfold rangeOrder; reflexivity).
  split; [exact Horder|].
  apply (SetRequestMetadataTags_sets_one_tag_per_header map_to_list fresh metadata
           Horder metadata_key_not_ManualKeep).
  vm_compute. reflexivity.
Defined.
End SampleSpans.

Section SampleRouters.
Import httprouter SampleRouter PrimFloat.

(** X14 on a run of options that ends with a rate out of range. *)
Lemma New_analytics_rate_stays_valid_witness :
  validRate (analyticsRate (config (fst (New [WithAnalyticsRate 0.25%float;
                                               WithServiceName "api";
                                               WithAnalyticsRate 7%float])))).
Proof.
  apply New_analytics_rate_stays_valid.
  - repeat constructor.
  - left. reflexivity.
Defined.

(** X15 on span options set twice, with a rate in range. *)
Lemma New_span_options_witness :
  spanOpts (config (fst (New ([WithSpanOptions [tag "a" "1"]]
                              ++ WithSpanOptions [tag "b" "2"]
                                 :: [WithAnalytics true]))))
  = [tag "b" "2"; tag "_dd1.sr.eausr" "1"; tag "span.kind" "server";
     tag "component" "julienschmidt/httprouter"].
Proof.
  etrans.
  - apply (New_span_options [WithSpanOptions [tag "a" "1"]] [tag "b" "2"]
             [WithAnalytics true]).
    repeat constructor.
  - vm_compute. reflexivity.
Defined.
End SampleRouters.
